(** * The in-memory backend of restic (backend/mem/mem_backend.go)

    A shallow embedding of the mock backend that keeps every blob in a Go
    map, and the properties of its operations: two-phase writes, ranged
    reads, existence, size, removal, reset and the sorted listing. *)

From Stdlib Require Import ZArith NArith Strings.String Strings.Ascii Init.Byte.
From Stdlib Require OrderedTypeEx.
From stdpp Require Import gmap strings list sorting.

(** ** Errors and outcomes *)

(** The error values the file returns.  The first three are built with
    [errors.New]; the fourth is [io.ErrUnexpectedEOF]; the last one stands
    for whatever error [h.Valid()] returns, carried with its message. *)
Inductive error : Type :=
  | ErrAlreadyPresent                 (* errors.New("already present") *)
  | ErrNoSuchData                     (* errors.New("no such data") *)
  | ErrOffsetBeyondEnd                (* errors.New("offset beyond end of file") *)
  | ErrUnexpectedEOF                  (* io.ErrUnexpectedEOF *)
  | ErrInvalidHandle (msg : string).  (* err from h.Valid() *)

(** A Go result [(T, error)] where the value is only meaningful without an
    error. *)
Inductive result (A : Type) : Type :=
  | Ok (a : A)
  | Err (e : error).
Arguments Ok {A} a.
Arguments Err {A} e.

(** What a call of [memLoad] does: it returns the count and an optional
    error, leaving [p] as the destination buffer after [copy]; or the slice
    expression [buf[off:]] panics at run time (negative [off]). *)
Inductive load_outcome : Type :=
  | LoadReturn (p : list byte) (n : Z) (err : option error)
  | LoadPanic.

(** ** sort.Strings *)

(** Go compares strings byte by byte, a proper prefix being smaller; this is
    [String.compare]. *)
Definition string_le (s1 s2 : string) : Prop := String.leb s1 s2 = true.
Definition string_lt (s1 s2 : string) : Prop := String.ltb s1 s2 = true.

#[global] Instance string_le_dec s1 s2 : Decision (string_le s1 s2).
Proof. unfold string_le. apply _. Defined.

#[global] Instance string_lt_dec s1 s2 : Decision (string_lt s1 s2).
Proof. unfold string_lt. apply _. Defined.

(** [sort.Strings] sorts in increasing order.  Its result is the one sorted
    arrangement of its argument (see [sort_Strings_unique] below), so any
    correct sorting function computes it; a merge sort is used here. *)
Definition sort_Strings (ids : list string) : list string :=
  merge_sort string_le ids.

Module mem.

Section Backend.

(** [backend.Type], its constant [backend.Config] and the method
    [Handle.Valid] are declared in package [backend], outside this file:
    they are parameters.  [Valid h = None] is Go's [h.Valid() == nil]. *)
Context {backend_Type : Type} `{Countable backend_Type}.
Variable Config : backend_Type.

(** [backend.Handle], of which the file reads the fields Type and Name. *)
Record Handle : Type := mkHandle { h_Type : backend_Type; h_Name : string }.

Variable Valid : Handle → option string.

(** ** Data model *)

Record entry : Type := mkEntry { entry_Type : backend_Type; entry_Name : string }.

#[global] Instance entry_eq_dec : EqDecision entry.
Proof. solve_decision. Defined.

#[global] Instance entry_countable : Countable entry.
Proof.
  refine (inj_countable' (λ e, (entry_Type e, entry_Name e))
                         (λ p, mkEntry p.1 p.2) _).
  by intros [].
Defined.

(** [type memMap map[entry][]byte] *)
Abbreviation memMap := (gmap entry (list byte)).

(** [MemoryBackend]: the map.  The mutex is held by every operation from
    its first to its last statement, so calls act one after another on
    the map; the embedded MockBackend only carries the function fields. *)
Record MemoryBackend : Type := mkBackend { data : memMap }.

(** [New()]: [data: make(memMap)]. *)
Definition New : MemoryBackend := {| data := ∅ |}.

(** The statement [if t == backend.Config { name = "" }]. *)
Definition config_name (t : backend_Type) (name : string) : string :=
  if decide (t = Config) then ""%string else name.

(** ** Operations on the map *)

(** [(be *MemoryBackend) insert] *)
Definition insert (be : MemoryBackend) (t : backend_Type) (name : string)
    (d : list byte) : MemoryBackend * option error :=
  match data be !! mkEntry t name with
  | Some _ => (be, Some ErrAlreadyPresent)
  | None => ({| data := <[mkEntry t name := d]> (data be) |}, None)
  end.

(** [memTest] *)
Definition memTest (be : MemoryBackend) (t : backend_Type) (name : string)
    : bool * option error :=
  match data be !! mkEntry t name with
  | Some _ => (true, None)
  | None => (false, None)
  end.

(** [tempMemEntry]: the bytes written so far.  Its [be] pointer is the
    store the operations below are applied to.  [Finalize] hands the slice
    [e.data.Bytes()] to the map; the buffer is never read from, so a later
    [Write] only appends past the end of that slice or moves to a new
    array, and the bytes in the map stay as they are: they are a value
    here. *)
Record tempMemEntry : Type := mkTemp { tmp_data : list byte }.

(** [memCreate] *)
Definition memCreate (be : MemoryBackend) : result tempMemEntry :=
  Ok {| tmp_data := [] |}.

(** [(e *tempMemEntry) Write]: [bytes.Buffer.Write] appends all of [p]. *)
Definition Write (e : tempMemEntry) (p : list byte)
    : tempMemEntry * (Z * option error) :=
  ({| tmp_data := tmp_data e ++ p |}, (Z.of_nat (length p), None)).

(** [(e *tempMemEntry) Size] *)
Definition Size (e : tempMemEntry) : N := N.of_nat (length (tmp_data e)).

(** [(e *tempMemEntry) Finalize] *)
Definition Finalize (e : tempMemEntry) (be : MemoryBackend)
    (t : backend_Type) (name : string) : MemoryBackend * option error :=
  let name := config_name t name in
  insert be t name (tmp_data e).

(** [memGetReader].  [offset] and [length] are Go [uint]s: they are never
    added or subtracted, only compared with a length and used as slice
    bounds, so no wrap-around arises.  The result is the content of the
    reader that is returned. *)
Definition memGetReader (be : MemoryBackend) (t : backend_Type)
    (name : string) (offset length : N) : result (list byte) :=
  let name := config_name t name in
  match data be !! mkEntry t name with
  | None => Err ErrNoSuchData
  | Some buf =>
      if (N.of_nat (List.length buf) <? offset)%N then Err ErrOffsetBeyondEnd
      else
        let buf := drop (N.to_nat offset) buf in
        if (0 <? length)%N then
          let length :=
            if (N.of_nat (List.length buf) <? length)%N
            then N.of_nat (List.length buf) else length in
          Ok (take (N.to_nat length) buf)
        else Ok buf
  end.

(** [memLoad].  [off] is an [int64]; [copy(p, buf)] overwrites the first
    [min(len(p), len(buf))] bytes of [p] and returns that number. *)
Definition memLoad (be : MemoryBackend) (h : Handle) (p : list byte)
    (off : Z) : load_outcome :=
  match Valid h with
  | Some msg => LoadReturn p 0 (Some (ErrInvalidHandle msg))
  | None =>
      let name := config_name (h_Type h) (h_Name h) in
      match data be !! mkEntry (h_Type h) name with
      | None => LoadReturn p 0 (Some ErrNoSuchData)
      | Some buf =>
          if (Z.of_nat (List.length buf) <? off)%Z
          then LoadReturn p 0 (Some ErrOffsetBeyondEnd)
          else if (off <? 0)%Z then LoadPanic
          else
            let buf := drop (Z.to_nat off) buf in
            let n := Nat.min (List.length p) (List.length buf) in
            let p' := take n buf ++ drop n p in
            if (Z.of_nat (List.length buf) <? Z.of_nat (List.length p))%Z
            then LoadReturn p' (Z.of_nat n) (Some ErrUnexpectedEOF)
            else LoadReturn p' (Z.of_nat n) None
      end
  end.

(** [memStat]: the result is the field [Size] of the [BlobInfo]. *)
Definition memStat (be : MemoryBackend) (h : Handle) : result Z :=
  match Valid h with
  | Some msg => Err (ErrInvalidHandle msg)
  | None =>
      let name := config_name (h_Type h) (h_Name h) in
      match data be !! mkEntry (h_Type h) name with
      | None => Err ErrNoSuchData
      | Some e => Ok (Z.of_nat (List.length e))
      end
  end.

(** [memRemove] *)
Definition memRemove (be : MemoryBackend) (t : backend_Type) (name : string)
    : MemoryBackend * option error :=
  match data be !! mkEntry t name with
  | None => (be, Some ErrNoSuchData)
  | Some _ => ({| data := delete (mkEntry t name) (data be) |}, None)
  end.

(** [DeleteFn]: [be.data = make(memMap)]. *)
Definition DeleteFn (be : MemoryBackend) : MemoryBackend * option error :=
  ({| data := ∅ |}, None).

(** [LocationFn] *)
Definition LocationFn : string := "Memory Backend"%string.

(** ** Listing *)

(** The loop of [memList] over the map, [it] being the order in which
    [range] happens to visit the entries: the names of the entries of
    type [t], appended one by one. *)
Fixpoint collect (t : backend_Type) (it : list (entry * list byte))
    : list string :=
  match it with
  | [] => []
  | (e, _) :: it' =>
      if decide (entry_Type e = t) then entry_Name e :: collect t it'
      else collect t it'
  end.

(** The slice [ids] of [memList] once [sort.Strings] has run, which the
    goroutine captures.  [map_to_list] is one visiting order; the result
    is the same for each of them ([memList_ids_any_order]). *)
Definition memList_ids (be : MemoryBackend) (t : backend_Type) : list string :=
  sort_Strings (collect t (map_to_list (data be))).

(** The goroutine of [memList]: the part of [ids] its loop has not sent
    yet, and whether it has closed [ch]. *)
Record lister : Type := mkLister { pending : list string; closed : bool }.

(** [memList]: what is returned is the channel fed by that goroutine. *)
Definition memList (be : MemoryBackend) (t : backend_Type) : lister :=
  {| pending := memList_ids be t; closed := false |}.

(** What a receiver sees on [ch]. *)
Inductive chan_event : Type :=
  | Send (id : string)
  | Close.

(** One turn of the goroutine, [done] telling whether the caller has
    signalled on the done channel: the [select] sends the next name, or
    takes the done case and returns; the deferred [close(ch)] runs on
    return and when the loop is over. *)
Inductive lister_step (done : bool) : lister → chan_event → lister → Prop :=
  | step_send id ids :
      lister_step done (mkLister (id :: ids) false) (Send id) (mkLister ids false)
  | step_done id ids :
      done = true →
      lister_step done (mkLister (id :: ids) false) Close (mkLister (id :: ids) true)
  | step_end :
      lister_step done (mkLister [] false) Close (mkLister [] true).

(** ** Calls through the function fields set up by [New] *)

Inductive call : Type :=
  | CallTest (t : backend_Type) (name : string)                     (* TestFn *)
  | CallFinalize (e : tempMemEntry) (t : backend_Type) (name : string)
  | CallGetReader (t : backend_Type) (name : string) (offset length : N)
  | CallLoad (h : Handle) (p : list byte) (off : Z)                 (* LoadFn *)
  | CallStat (h : Handle)                                           (* StatFn *)
  | CallRemove (t : backend_Type) (name : string)                   (* RemoveFn *)
  | CallList (t : backend_Type)                                     (* ListFn *)
  | CallDelete.                                                     (* DeleteFn *)

Inductive response : Type :=
  | RespTest (b : bool) (err : option error)
  | RespErr (err : option error)
  | RespReader (r : result (list byte))
  | RespLoad (o : load_outcome)
  | RespStat (r : result Z)
  | RespList (l : lister).

(** The store after a call, and what the call returned. *)
Definition exec (c : call) (be : MemoryBackend) : MemoryBackend * response :=
  match c with
  | CallTest t name => let '(b, err) := memTest be t name in (be, RespTest b err)
  | CallFinalize e t name =>
      let '(be', err) := Finalize e be t name in (be', RespErr err)
  | CallGetReader t name offset length =>
      (be, RespReader (memGetReader be t name offset length))
  | CallLoad h p off => (be, RespLoad (memLoad be h p off))
  | CallStat h => (be, RespStat (memStat be h))
  | CallRemove t name =>
      let '(be', err) := memRemove be t name in (be', RespErr err)
  | CallList t => (be, RespList (memList be t))
  | CallDelete => let '(be', err) := DeleteFn be in (be', RespErr err)
  end.

(** The error a response carries, if any. *)
Definition response_error (r : response) : option error :=
  match r with
  | RespTest _ err | RespErr err => err
  | RespReader (Err e) | RespStat (Err e) => Some e
  | RespReader (Ok _) | RespStat (Ok _) => None
  | RespLoad (LoadReturn _ _ err) => err
  | RespLoad LoadPanic => None
  | RespList _ => None
  end.

(** The store after a sequence of calls. *)
Fixpoint run (cs : list call) (be : MemoryBackend) : MemoryBackend :=
  match cs with
  | [] => be
  | c :: cs' => run cs' (exec c be).1
  end.

(** ** A listing in progress next to the store *)

(** The store, the done signal of one listing, and its goroutine. *)
Record system : Type :=
  mkSystem { sys_store : MemoryBackend; sys_done : bool; sys_ch : lister }.

(** The system right after [memList be t] has returned. *)
Definition listing (be : MemoryBackend) (t : backend_Type) : system :=
  {| sys_store := be; sys_done := false; sys_ch := memList be t |}.

(** A step of the system and the name the consumer receives in it: some
    call on the store, the consumer signalling done, or a turn of the
    goroutine. *)
Inductive sys_step : system → option string → system → Prop :=
  | sys_call c s :
      sys_step s None (mkSystem (exec c (sys_store s)).1 (sys_done s) (sys_ch s))
  | sys_cancel s :
      sys_step s None (mkSystem (sys_store s) true (sys_ch s))
  | sys_send s id l' :
      lister_step (sys_done s) (sys_ch s) (Send id) l' →
      sys_step s (Some id) (mkSystem (sys_store s) (sys_done s) l')
  | sys_close s l' :
      lister_step (sys_done s) (sys_ch s) Close l' →
      sys_step s None (mkSystem (sys_store s) (sys_done s) l').

(** Runs of the system with the names received, in order. *)
Inductive sys_run : system → list string → system → Prop :=
  | sys_run_nil s : sys_run s [] s
  | sys_run_cons s1 o s2 out s3 :
      sys_step s1 o s2 → sys_run s2 out s3 →
      sys_run s1 (option_list o ++ out) s3.

(** The turns the goroutine takes one after another, with what the
    receiver sees in each. *)
Inductive lister_run (done : bool) : lister → list chan_event → lister → Prop :=
  | lister_run_nil l : lister_run done l [] l
  | lister_run_cons l1 ev l2 evs l3 :
      lister_step done l1 ev l2 → lister_run done l2 evs l3 →
      lister_run done l1 (ev :: evs) l3.

(** The channel is only ever closed on the done signal or once every name
    has been sent. *)
Definition closed_ok (s : system) : Prop :=
  closed (sys_ch s) = true → sys_done s = true ∨ pending (sys_ch s) = [].

End Backend.

Arguments Handle : clear implicits.
Arguments entry : clear implicits.

(** ** A concrete store *)

(** Modelled from the spec: the categories of package [backend] are not in
    this file.  The spec has a small closed set of blob kinds and names two
    of them, the ordinary data category and the singleton config one. *)
Inductive Category : Type := Data | Config.

#[global] Instance Category_eq_dec : EqDecision Category.
Proof. solve_decision. Defined.

#[global] Instance Category_countable : Countable Category.
Proof.
  refine (inj_countable' (λ c, match c with Data => true | Config => false end)
                         (λ b : bool, if b then Data else Config) _).
  by intros [].
Defined.

(** Modelled from the spec: [Handle.Valid] is not in this file.  The spec
    says that it turns down malformed key references; this sample turns
    down a handle of an ordinary category that has no name and accepts
    every other handle.  It only serves the concrete instances below. *)
Definition sample_Valid (h : Handle Category) : option string :=
  if decide (h_Type h ≠ Config ∧ h_Name h = ""%string)
  then Some "invalid Name"%string else None.

(** A few bytes and a store with two data blobs and the config blob. *)
Definition b123 : list byte := [x01; x02; x03].
Definition b45 : list byte := [x04; x05].

Definition store3 : @MemoryBackend Category _ _ :=
  run Config sample_Valid
    [CallFinalize (mkTemp b123) Data "b"%string;
     CallFinalize (mkTemp b45) Config "ignored"%string;
     CallFinalize (mkTemp b45) Data "a"%string] New.

(** A store with one data blob finalized under the empty name: [Finalize]
    does not validate, so the key is stored although [sample_Valid] turns
    its handle down. *)
Definition store_noname : @MemoryBackend Category _ _ :=
  run Config sample_Valid [CallFinalize (mkTemp b45) Data ""%string] New.

(** * Properties *)

(** ** The order of [sort.Strings] *)

Section StringOrder.

Import OrderedTypeEx.

Lemma string_lt_lts s1 s2 : string_lt s1 s2 ↔ String_as_OT.lt s1 s2.
Proof.
  unfold string_lt, String.ltb. rewrite <- String_as_OT.cmp_lt.
  unfold String_as_OT.cmp.
  destruct (String.compare s1 s2); intuition (discriminate || auto).
Qed.

Lemma string_le_lt_eq s1 s2 : string_le s1 s2 ↔ s1 = s2 ∨ string_lt s1 s2.
Proof.
  unfold string_le, string_lt, String.leb, String.ltb.
  pose proof (String_as_OT.cmp_eq s1 s2) as Heq.
  unfold String_as_OT.cmp in Heq.
  destruct (String.compare s1 s2); intuition (discriminate || auto).
Qed.

Lemma string_lt_irrefl s : ¬ string_lt s s.
Proof.
  rewrite string_lt_lts. intros Hlt.
  by apply String_as_OT.lt_not_eq in Hlt.
Qed.

Lemma string_lt_trans s1 s2 s3 :
  string_lt s1 s2 → string_lt s2 s3 → string_lt s1 s3.
Proof. rewrite !string_lt_lts. apply String_as_OT.lt_trans. Qed.

#[global] Instance string_le_refl : Reflexive string_le.
Proof. intros s. apply string_le_lt_eq. by left. Qed.

#[global] Instance string_le_trans : Transitive string_le.
Proof.
  intros s1 s2 s3. rewrite !string_le_lt_eq.
  intros [-> | H12] [-> | H23]; eauto using string_lt_trans.
Qed.

#[global] Instance string_le_total : Total string_le.
Proof. intros s1 s2. apply String.leb_total. Qed.

#[global] Instance string_le_antisym : AntiSymm (=) string_le.
Proof. intros s1 s2. apply String.leb_antisym. Qed.

End StringOrder.

Lemma sort_Strings_sorted ids : StronglySorted string_le (sort_Strings ids).
Proof. apply StronglySorted_merge_sort; apply _. Qed.

Lemma sort_Strings_perm ids : sort_Strings ids ≡ₚ ids.
Proof. apply merge_sort_Permutation. Qed.

(** Whatever algorithm [sort.Strings] runs, a sorted rearrangement of [ids]
    is the list [sort_Strings ids]. *)
Lemma sort_Strings_unique ids ids' :
  Sorted string_le ids' → ids' ≡ₚ ids → ids' = sort_Strings ids.
Proof.
  intros Hs Hp. apply (Sorted_unique string_le); [done | |].
  - apply Sorted_merge_sort; apply _.
  - by rewrite Hp, sort_Strings_perm.
Qed.

Lemma sort_Strings_elem_of ids (s : string) : s ∈ sort_Strings ids ↔ s ∈ ids.
Proof. by rewrite sort_Strings_perm. Qed.

(** Without repeated names the order is strict. *)
Lemma sort_Strings_strict ids :
  NoDup ids → StronglySorted string_lt (sort_Strings ids).
Proof.
  intros Hnd. rewrite <- sort_Strings_perm in Hnd.
  pose proof (sort_Strings_sorted ids) as Hs.
  induction Hs as [|x l Hs IH Hall]; [constructor|].
  apply NoDup_cons in Hnd as [Hx Hnd].
  constructor; [by apply IH|].
  apply Forall_forall. intros y Hy.
  rewrite Forall_forall in Hall.
  destruct (proj1 (string_le_lt_eq x y) (Hall y Hy)) as [-> | Hlt]; [|done].
  by destruct Hx.
Qed.

(** ** The operations *)

Section Properties.

Context {backend_Type : Type} `{Countable backend_Type}.
Variable Config : backend_Type.
Variable Valid : Handle backend_Type → option string.

Local Abbreviation store := (@MemoryBackend backend_Type _ _).
Local Abbreviation key t name := (mkEntry t (config_name Config t name)).

Implicit Types (be : store) (t : backend_Type) (name : string).
Implicit Types (e : tempMemEntry) (h : Handle backend_Type).
Implicit Types (buf p d : list byte).

Lemma config_name_Config name : config_name Config Config name = ""%string.
Proof. unfold config_name. by rewrite decide_True. Qed.

Lemma config_name_other t name : t ≠ Config → config_name Config t name = name.
Proof. intros Ht. unfold config_name. by rewrite decide_False. Qed.

Lemma config_name_idemp t name :
  config_name Config t (config_name Config t name) = config_name Config t name.
Proof. unfold config_name. by case_decide. Qed.

(** *** insert and Finalize *)

Lemma insert_absent be t name d :
  data be !! mkEntry t name = None →
  insert be t name d = ({| data := <[mkEntry t name := d]> (data be) |}, None).
Proof. intros Hno. unfold insert. by rewrite Hno. Qed.

Lemma insert_ok_inv be t name d be' :
  insert be t name d = (be', None) →
  data be !! mkEntry t name = None ∧
  data be' = <[mkEntry t name := d]> (data be).
Proof.
  unfold insert. destruct (data be !! mkEntry t name); [done|].
  intros [= <-]. done.
Qed.

Lemma insert_err_inv be t name d be' err :
  insert be t name d = (be', Some err) →
  be' = be ∧ err = ErrAlreadyPresent ∧ is_Some (data be !! mkEntry t name).
Proof.
  unfold insert. destruct (data be !! mkEntry t name) eqn:Hl; [|done].
  intros [= <- <-]. eauto.
Qed.

Lemma Finalize_ok_inv e be t name be' :
  Finalize Config e be t name = (be', None) →
  data be !! key t name = None ∧
  data be' = <[key t name := tmp_data e]> (data be).
Proof. apply insert_ok_inv. Qed.

(** *** Reads *)

Lemma memTest_eq be t name :
  memTest be t name = (bool_decide (is_Some (data be !! mkEntry t name)), None).
Proof.
  unfold memTest. destruct (data be !! mkEntry t name) eqn:Hl.
  - by rewrite bool_decide_eq_true_2.
  - rewrite bool_decide_eq_false_2; [done|]. by intros [? ?].
Qed.

(** What [memGetReader] returns for a stored blob. *)
Lemma memGetReader_found be t name buf offset length :
  data be !! key t name = Some buf →
  memGetReader Config be t name offset length =
    if (N.of_nat (List.length buf) <? offset)%N then Err ErrOffsetBeyondEnd
    else if (0 <? length)%N
         then Ok (take (N.to_nat length) (drop (N.to_nat offset) buf))
         else Ok (drop (N.to_nat offset) buf).
Proof.
  intros Hl. unfold memGetReader. rewrite Hl.
  destruct (N.ltb_spec (N.of_nat (List.length buf)) offset); [done|].
  destruct (N.ltb_spec 0 length); [|done].
  destruct (N.ltb_spec (N.of_nat (List.length (drop (N.to_nat offset) buf))) length)
    as [Hlt|]; [|done].
  rewrite Nat2N.id. f_equal. rewrite !firstn_all2; [done| |done].
  rewrite length_drop in Hlt |- *. lia.
Qed.

(** What [memLoad] returns for a stored blob and an offset within it. *)
Lemma memLoad_found be h p off buf :
  Valid h = None →
  data be !! key (h_Type h) (h_Name h) = Some buf →
  (0 ≤ off ≤ Z.of_nat (List.length buf))%Z →
  let rest := drop (Z.to_nat off) buf in
  let n := Nat.min (List.length p) (List.length rest) in
  memLoad Config Valid be h p off =
    LoadReturn (take n rest ++ drop n p) (Z.of_nat n)
      (if decide (List.length rest < List.length p)
       then Some ErrUnexpectedEOF else None).
Proof.
  intros Hv Hl Hoff rest n. unfold memLoad. rewrite Hv, Hl.
  destruct (Z.ltb_spec (Z.of_nat (List.length buf)) off); [lia|].
  destruct (Z.ltb_spec off 0); [lia|].
  fold rest. fold n.
  destruct (Z.ltb_spec (Z.of_nat (List.length rest)) (Z.of_nat (List.length p)));
    case_decide; (done || lia).
Qed.

Lemma insert_present be t name d0 d :
  data be !! mkEntry t name = Some d0 →
  insert be t name d = (be, Some ErrAlreadyPresent).
Proof. intros Hl. unfold insert. by rewrite Hl. Qed.

(** C3. For a key that is already in the map, [insert] fails with
    "already present", hands back the very same store, and the bytes
    stored under the key are still those that were there before. *)
Theorem insert_rejects_present be t name d0 d :
  data be !! mkEntry t name = Some d0 →
  insert be t name d = (be, Some ErrAlreadyPresent) ∧
  data (insert be t name d).1 !! mkEntry t name = Some d0.
Proof.
  intros Hl. by rewrite (insert_present _ _ _ d0).
Qed.

(** Two inserts in a row: the first one wins. *)
Lemma insert_twice be t name d1 d2 be1 :
  insert be t name d1 = (be1, None) →
  insert be1 t name d2 = (be1, Some ErrAlreadyPresent) ∧
  data be1 !! mkEntry t name = Some d1.
Proof.
  intros [_ Hd]%insert_ok_inv.
  assert (data be1 !! mkEntry t name = Some d1) as Hl.
  { rewrite Hd. apply lookup_insert_eq. }
  split; [|done]. by apply (insert_present _ _ _ d1).
Qed.

(** The same through [Finalize], where the config category has one slot
    whatever the names. *)
Lemma Finalize_twice e1 e2 be t name1 name2 be1 :
  config_name Config t name1 = config_name Config t name2 →
  Finalize Config e1 be t name1 = (be1, None) →
  Finalize Config e2 be1 t name2 = (be1, Some ErrAlreadyPresent) ∧
  data be1 !! key t name1 = Some (tmp_data e1).
Proof.
  unfold Finalize. intros <- Hf. by apply insert_twice with be.
Qed.

(** C5. For a stored blob and an offset within it, [memGetReader] with
    length zero, or with a length larger than what is left after the
    offset, returns all the bytes from the offset to the end, without an
    error. *)
Theorem memGetReader_length_policy be t name buf offset length :
  data be !! key t name = Some buf →
  (offset ≤ N.of_nat (List.length buf))%N →
  (length = 0 ∨ N.of_nat (List.length buf) - offset < length)%N →
  memGetReader Config be t name offset length = Ok (drop (N.to_nat offset) buf).
Proof.
  intros Hl Hoff Hlen. rewrite (memGetReader_found _ _ _ buf) by done.
  destruct (N.ltb_spec (N.of_nat (List.length buf)) offset); [lia|].
  destruct (N.ltb_spec 0 length); [|done].
  f_equal. apply firstn_all2. rewrite length_drop. lia.
Qed.

(** A length that fits is honoured as it is. *)
Lemma memGetReader_exact be t name buf offset length :
  data be !! key t name = Some buf →
  (offset ≤ N.of_nat (List.length buf))%N → (0 < length)%N →
  memGetReader Config be t name offset length =
    Ok (take (N.to_nat length) (drop (N.to_nat offset) buf)).
Proof.
  intros Hl Hoff Hlen. rewrite (memGetReader_found _ _ _ buf) by done.
  destruct (N.ltb_spec (N.of_nat (List.length buf)) offset); [lia|].
  by destruct (N.ltb_spec 0 length); [|lia].
Qed.

(** C6, as amended.  For a stored blob, an offset within it and a
    destination [p]: when the handle fails validation, [memLoad] copies
    nothing and returns 0 with the error of [h.Valid()]; when it passes,
    [memLoad] overwrites the first [n] bytes of [p] with the bytes at the
    offset and returns [n], the smaller of [len(p)] and the number of
    bytes left.  The error is then [io.ErrUnexpectedEOF] exactly when [p]
    is longer than what is left, and then [n] is what is left; there is no
    error otherwise, and then [p] has been filled completely. *)
Theorem memLoad_short_read be h p off buf :
  data be !! key (h_Type h) (h_Name h) = Some buf →
  (0 ≤ off ≤ Z.of_nat (List.length buf))%Z →
  let rest := drop (Z.to_nat off) buf in
  let n := Nat.min (List.length p) (List.length rest) in
  match Valid h with
  | Some msg =>
      memLoad Config Valid be h p off
        = LoadReturn p 0 (Some (ErrInvalidHandle msg))
  | None =>
      ∃ err,
        memLoad Config Valid be h p off =
          LoadReturn (take n rest ++ drop n p) (Z.of_nat n) err ∧
        (err = Some ErrUnexpectedEOF ↔ List.length rest < List.length p) ∧
        (List.length rest < List.length p → n = List.length rest) ∧
        (List.length p ≤ List.length rest →
           err = None ∧ n = List.length p ∧
           take n rest ++ drop n p = take n rest)
  end.
Proof.
  intros Hl Hoff rest n.
  destruct (Valid h) as [msg|] eqn:Hv.
  { unfold memLoad. by rewrite Hv. }
  eexists. split; [by apply memLoad_found|].
  fold rest. subst n.
  split; [case_decide; split; (done || lia)|].
  split; [lia|].
  intros Hle. split; [by rewrite decide_False by lia|]. split; [lia|].
  rewrite drop_ge by lia. apply app_nil_r.
Qed.

(** C4, as amended.  For a stored blob, [memGetReader] at the offset equal
    to its length returns an empty reader, and beyond it fails with "offset
    beyond end of file".  [memLoad] validates the handle first: for a
    handle that fails validation it copies nothing and returns 0 with the
    error of [h.Valid()], at either offset.  For a handle that passes,
    [memLoad] at the offset equal to the length copies nothing and returns
    0, with no error when the destination is empty and with
    [io.ErrUnexpectedEOF] when it is not; beyond the length it fails with
    "offset beyond end of file". *)
Theorem read_offset_boundary be t name buf p offset length off :
  data be !! key t name = Some buf →
  (N.of_nat (List.length buf) < offset)%N →
  (Z.of_nat (List.length buf) < off)%Z →
  memGetReader Config be t name (N.of_nat (List.length buf)) length = Ok [] ∧
  memGetReader Config be t name offset length = Err ErrOffsetBeyondEnd ∧
  memLoad Config Valid be (mkHandle t name) p (Z.of_nat (List.length buf)) =
    LoadReturn p 0
      match Valid (mkHandle t name) with
      | Some msg => Some (ErrInvalidHandle msg)
      | None => if decide (p = []) then None else Some ErrUnexpectedEOF
      end ∧
  memLoad Config Valid be (mkHandle t name) p off =
    LoadReturn p 0
      match Valid (mkHandle t name) with
      | Some msg => Some (ErrInvalidHandle msg)
      | None => Some ErrOffsetBeyondEnd
      end.
Proof.
  intros Hl Hoffset Hoff. split; [|split].
  - rewrite (memGetReader_found _ _ _ buf) by done.
    destruct (N.ltb_spec (N.of_nat (List.length buf)) (N.of_nat (List.length buf)));
      [lia|].
    rewrite Nat2N.id, drop_all. by destruct (0 <? length)%N; rewrite ?take_nil.
  - rewrite (memGetReader_found _ _ _ buf) by done.
    by destruct (N.ltb_spec (N.of_nat (List.length buf)) offset); [|lia].
  - destruct (Valid (mkHandle t name)) as [msg|] eqn:Hv.
    { unfold memLoad. by rewrite Hv. }
    split.
    + rewrite (memLoad_found _ _ _ _ buf) by (done || simpl; lia).
      rewrite Nat2Z.id, drop_all. simpl.
      rewrite Nat.min_0_r. simpl. rewrite drop_0.
      destruct p; by repeat case_decide; simpl in *; try lia.
    + unfold memLoad. rewrite Hv. simpl. rewrite Hl.
      by destruct (Z.ltb_spec (Z.of_nat (List.length buf)) off); [|lia].
Qed.

(** C10, as amended.  When the key an operation resolves to is not in
    the map, [memGetReader] fails with "no such data" whatever the offset
    and the length.  [memLoad] fails with the error of [h.Valid()] when the
    handle fails validation and with "no such data" when it passes,
    whatever the offset; neither of the two ever answers "offset beyond
    end of file" there. *)
Theorem absent_key_before_offset be t name p offset length off :
  data be !! key t name = None →
  memGetReader Config be t name offset length = Err ErrNoSuchData ∧
  memLoad Config Valid be (mkHandle t name) p off =
    LoadReturn p 0
      (Some match Valid (mkHandle t name) with
            | Some msg => ErrInvalidHandle msg
            | None => ErrNoSuchData
            end) ∧
  (∀ p' n, memLoad Config Valid be (mkHandle t name) p off
             ≠ LoadReturn p' n (Some ErrOffsetBeyondEnd)).
Proof.
  intros Hl. unfold memGetReader, memLoad. simpl. rewrite Hl.
  split; [done|].
  by destruct (Valid (mkHandle t name)).
Qed.

(** C9. A call that returns an error leaves the store as it was. *)
Theorem failed_call_keeps_store c be err :
  response_error (exec Config Valid c be).2 = Some err →
  (exec Config Valid c be).1 = be.
Proof.
  destruct c as [t name|e t name| | | |t name| |]; simpl; try done.
  - by destruct (memTest be t name).
  - destruct (Finalize Config e be t name) as [be' [err'|]] eqn:Hf; [|done].
    by apply insert_err_inv in Hf as [-> _].
  - unfold memRemove. by destruct (data be !! mkEntry t name).
Qed.

(** The functions that write to the map, one by one. *)
Lemma failed_write_keeps_map be :
  (∀ t name d be' err, insert be t name d = (be', Some err) → be' = be) ∧
  (∀ e t name be' err, Finalize Config e be t name = (be', Some err) → be' = be) ∧
  (∀ t name be' err, memRemove be t name = (be', Some err) → be' = be) ∧
  (∀ be' err, DeleteFn be ≠ (be', Some err)).
Proof.
  repeat split.
  - intros t name d be' err Hi. by apply insert_err_inv in Hi as [-> _].
  - intros e t name be' err Hi. by apply insert_err_inv in Hi as [-> _].
  - intros t name be' err. unfold memRemove.
    destruct (data be !! mkEntry t name); [done|]. by intros [= <- _].
  - done.
Qed.

(** *** Listing *)

Lemma collect_elem_of t name (it : list (entry backend_Type * list byte)) :
  name ∈ collect t it ↔ ∃ d, (mkEntry t name, d) ∈ it.
Proof.
  induction it as [|[[t' name'] d'] it IH]; simpl.
  - split; [by intros ?%elem_of_nil | by intros [? ?%elem_of_nil]].
  - case_decide as Ht; simpl in Ht.
    + subst t'. rewrite elem_of_cons, IH. split.
      * intros [-> | [d Hd]]; [exists d'; left | exists d; right]; done.
      * intros [d [[= -> ->] | Hd]%elem_of_cons]; [by left | right; eauto].
    + rewrite IH. split; intros [d Hd]; exists d.
      * by right.
      * apply elem_of_cons in Hd as [[= -> ->] | Hd]; done.
Qed.

Lemma collect_Permutation t (it it' : list (entry backend_Type * list byte)) :
  it ≡ₚ it' → collect t it ≡ₚ collect t it'.
Proof.
  induction 1 as [|[k d] ? ? ? IH|[k1 d1] [k2 d2] ?|]; simpl.
  - done.
  - case_decide; by rewrite IH.
  - repeat case_decide; (done || apply perm_swap).
  - by etrans.
Qed.

Lemma collect_NoDup t (it : list (entry backend_Type * list byte)) :
  NoDup it.*1 → NoDup (collect t it).
Proof.
  induction it as [|[[t' name'] d'] it IH]; simpl; [constructor|].
  intros [Hno Hnd]%NoDup_cons. case_decide as Ht; simpl in Ht; [|by apply IH].
  subst t'. apply NoDup_cons. split; [|by apply IH].
  intros [d Hd]%collect_elem_of. apply Hno.
  apply list_elem_of_fmap. by exists (mkEntry t name', d).
Qed.

(** The names listed are those of the entries of type [t] in the map. *)
Lemma memList_ids_elem_of be t name :
  name ∈ memList_ids be t ↔ is_Some (data be !! mkEntry t name).
Proof.
  unfold memList_ids. rewrite sort_Strings_elem_of, collect_elem_of.
  split.
  - intros [d Hd%elem_of_map_to_list]. eauto.
  - intros [d Hd]. exists d. by apply elem_of_map_to_list.
Qed.

Lemma memList_ids_strict be t : StronglySorted string_lt (memList_ids be t).
Proof.
  apply sort_Strings_strict, collect_NoDup, NoDup_fst_map_to_list.
Qed.

(** Go does not fix the order in which [range] visits a map: the sorted
    slice is the same for every order. *)
Lemma memList_ids_any_order be t (it : list (entry backend_Type * list byte)) :
  it ≡ₚ map_to_list (data be) →
  sort_Strings (collect t it) = memList_ids be t.
Proof.
  intros Hp. apply sort_Strings_unique.
  - apply Sorted_merge_sort; apply _.
  - rewrite sort_Strings_perm. by apply collect_Permutation.
Qed.

Lemma memList_ids_empty t : memList_ids (mkBackend ∅) t = [].
Proof. unfold memList_ids. simpl. by rewrite map_to_list_empty. Qed.

(** *** The goroutine of a listing *)

Lemma lister_step_pending done (l l' : lister) ev :
  lister_step done l ev l' →
  pending l = match ev with Send id => [id] | Close => [] end ++ pending l'.
Proof. by destruct 1. Qed.

Lemma sys_step_pending (s s' : @system backend_Type _ _) o :
  sys_step Config Valid s o s' →
  pending (sys_ch s) = option_list o ++ pending (sys_ch s').
Proof.
  destruct 1 as [| |? ? ? Hs|? ? Hs]; simpl; try done.
  - by apply lister_step_pending in Hs.
  - by apply lister_step_pending in Hs.
Qed.

Lemma sys_step_closed_ok (s s' : @system backend_Type _ _) o :
  sys_step Config Valid s o s' → closed_ok s → closed_ok s'.
Proof.
  unfold closed_ok.
  destruct 1 as [| |? ? ? Hs|? ? Hs]; simpl; try (inversion Hs; subst; simpl);
    intuition (discriminate || auto).
Qed.

(** The names received so far and the names not sent yet always make up
    the slice the goroutine started from. *)
Lemma sys_run_pending (s s' : @system backend_Type _ _) out :
  sys_run Config Valid s out s' →
  pending (sys_ch s) = out ++ pending (sys_ch s').
Proof.
  induction 1 as [|s1 o s2 out s3 Hstep _ IH]; [done|].
  rewrite (sys_step_pending _ _ _ Hstep), IH. by rewrite app_assoc.
Qed.

Lemma sys_run_closed_ok (s s' : @system backend_Type _ _) out :
  sys_run Config Valid s out s' → closed_ok s → closed_ok s'.
Proof. induction 1; eauto using sys_step_closed_ok. Qed.

Lemma sys_run_app (s1 s2 s3 : @system backend_Type _ _) out1 out2 :
  sys_run Config Valid s1 out1 s2 → sys_run Config Valid s2 out2 s3 →
  sys_run Config Valid s1 (out1 ++ out2) s3.
Proof.
  induction 1 as [|? ? ? ? ? Hstep _ IH]; [done|]. intros Hrun.
  rewrite <- app_assoc. eapply sys_run_cons; eauto.
Qed.

(** Calls on the store go through while a listing is open, and leave its
    goroutine alone. *)
Lemma sys_run_calls cs be done (l : lister) :
  sys_run Config Valid (mkSystem be done l) []
          (mkSystem (run Config Valid cs be) done l).
Proof.
  revert be. induction cs as [|c cs IH]; intros be; simpl; [constructor|].
  change (@nil string) with (option_list (@None string) ++ []).
  eapply sys_run_cons; [|apply IH].
  apply (sys_call _ _ c (mkSystem be done l)).
Qed.

(** Left alone by the consumer, the goroutine sends every name and then
    closes the channel. *)
Lemma sys_run_drain be ids :
  sys_run Config Valid (mkSystem be false (mkLister ids false)) ids
          (mkSystem be false (mkLister [] true)).
Proof.
  induction ids as [|id ids IH].
  - change (@nil string) with (option_list (@None string) ++ []).
    eapply sys_run_cons; [|constructor].
    apply (sys_close _ _ (mkSystem be false (mkLister [] false))). constructor.
  - change (id :: ids) with (option_list (Some id) ++ ids) at 2.
    eapply sys_run_cons; [|apply IH].
    apply (sys_send _ _ (mkSystem be false (mkLister (id :: ids) false))).
    constructor.
Qed.

(** C7. The slice a listing works from holds exactly the names of the
    entries of type [t] that are in the map when [memList] is called, in
    strictly increasing order.  Whatever calls are made on the store
    afterwards, the names received so far followed by the names not sent
    yet are that slice; a channel closed without a done signal has
    delivered all of it; and the goroutine can always deliver all of it,
    whichever calls have changed the store in between. *)
Theorem memList_sorted_snapshot be t :
  (∀ name, name ∈ memList_ids be t ↔ is_Some (data be !! mkEntry t name)) ∧
  StronglySorted string_lt (memList_ids be t) ∧
  (∀ out s',
     sys_run Config Valid (listing be t) out s' →
     memList_ids be t = out ++ pending (sys_ch s') ∧
     (closed (sys_ch s') = true → sys_done s' = false →
      out = memList_ids be t)) ∧
  (∀ cs, sys_run Config Valid (listing be t) (memList_ids be t)
           (mkSystem (run Config Valid cs be) false (mkLister [] true))).
Proof.
  split; [apply memList_ids_elem_of|].
  split; [apply memList_ids_strict|].
  split.
  - intros out s' Hrun.
    pose proof (sys_run_pending _ _ _ Hrun) as Hp. simpl in Hp.
    split; [done|]. intros Hc Hd.
    assert (closed_ok (listing be t)) as Hok by (intros ?; done).
    apply (sys_run_closed_ok _ _ _ Hrun) in Hok.
    destruct (Hok Hc) as [Hd' | Hnil]; [congruence|].
    by rewrite Hp, Hnil, app_nil_r.
  - intros cs.
    rewrite <- (app_nil_l (memList_ids be t)) at 1.
    eapply sys_run_app; [apply sys_run_calls | apply sys_run_drain].
Qed.

(** C8. [DeleteFn] returns no error; in the store it leaves, [memTest]
    answers false for every key, and a listing of any type starts with
    nothing to send and delivers nothing. *)
Theorem DeleteFn_resets be :
  ∃ be',
    DeleteFn be = (be', None) ∧
    (∀ t name, memTest be' t name = (false, None)) ∧
    (∀ t, memList be' t = mkLister [] false) ∧
    (∀ t out s', sys_run Config Valid (listing be' t) out s' → out = []).
Proof.
  exists (mkBackend ∅). split; [done|].
  assert (∀ t, memList (mkBackend ∅) t = mkLister [] false) as Hl.
  { intros t. unfold memList. by rewrite memList_ids_empty. }
  split; [|split; [done|]].
  - intros t name. unfold memTest. simpl. by rewrite lookup_empty.
  - intros t out s' Hrun. apply sys_run_pending in Hrun.
    unfold listing in Hrun. simpl in Hrun. rewrite memList_ids_empty in Hrun.
    symmetry in Hrun. by apply app_eq_nil in Hrun as [-> _].
Qed.

(** *** Writing and reading back *)

Lemma Write_from_empty p : tmp_data (Write (mkTemp []) p).1 = p.
Proof. done. Qed.

Lemma Size_Write e p : Size (Write e p).1 = (Size e + N.of_nat (List.length p))%N.
Proof. unfold Size, Write. simpl. rewrite length_app. lia. Qed.

(** After a successful [Finalize] the reader, the size and the existence
    test on the slot the name resolves to all agree with what was
    written.  [memTest] looks the name up as it is given. *)
Lemma Finalize_then_read e be t name be' :
  Finalize Config e be t name = (be', None) →
  memGetReader Config be' t name 0 0 = Ok (tmp_data e) ∧
  (Valid (mkHandle t name) = None →
     memStat Config Valid be' (mkHandle t name)
       = Ok (Z.of_nat (List.length (tmp_data e)))) ∧
  memTest be' t (config_name Config t name) = (true, None) ∧
  (t ≠ Config ∨ name = ""%string → memTest be' t name = (true, None)).
Proof.
  intros [_ Hd]%Finalize_ok_inv.
  assert (data be' !! key t name = Some (tmp_data e)) as Hl.
  { rewrite Hd. apply lookup_insert_eq. }
  split; [|split; [|split]].
  - rewrite (memGetReader_found _ _ _ (tmp_data e)) by done.
    by destruct (N.ltb_spec (N.of_nat (List.length (tmp_data e))) 0); [lia|].
  - intros Hv. unfold memStat. rewrite Hv. simpl. by rewrite Hl.
  - unfold memTest. by rewrite Hl.
  - intros Ht. unfold memTest.
    assert (config_name Config t name = name) as Hn.
    { destruct Ht as [Ht | ->]; [by apply config_name_other|].
      unfold config_name. by case_decide. }
    rewrite Hn in Hl. by rewrite Hl.
Qed.

(** *** Keys of the config type *)

(** Entries only come into the map through [Finalize]: in a store built by
    calls from [New], every key of the config type has the empty name. *)
Lemma run_keys_resolved cs k :
  is_Some (data (run Config Valid cs New) !! k) →
  entry_Name k = config_name Config (entry_Type k) (entry_Name k).
Proof.
  assert (∀ be,
    (∀ k, is_Some (data be !! k) →
          entry_Name k = config_name Config (entry_Type k) (entry_Name k)) →
    ∀ k, is_Some (data (run Config Valid cs be) !! k) →
         entry_Name k = config_name Config (entry_Type k) (entry_Name k)) as Hrun.
  { induction cs as [|c cs IH]; intros be Hbe; [done|]. simpl.
    apply IH. clear IH. intros k'.
    destruct c as [t name|e t name| | | |t name| |]; simpl; try apply Hbe.
    - destruct (memTest be t name). apply Hbe.
    - unfold Finalize, insert.
      destruct (data be !! key t name); simpl; [apply Hbe|].
      destruct (decide (key t name = k')) as [<- | Hne].
      + intros _. simpl. by rewrite config_name_idemp.
      + rewrite lookup_insert_ne by done. apply Hbe.
    - unfold memRemove. destruct (data be !! mkEntry t name); simpl; [|apply Hbe].
      destruct (decide (mkEntry t name = k')) as [<- | Hne].
      + rewrite lookup_delete_eq. by intros [? ?].
      + rewrite lookup_delete_ne by done. apply Hbe.
    - rewrite lookup_empty. by intros [? ?]. }
  apply Hrun. intros k'. simpl. rewrite lookup_empty. by intros [? ?].
Qed.

(** [memTest] and [memRemove] use the name as it is given: in such a store
    they never find a config blob under a name that is not empty, while
    [Finalize], [memGetReader], [memLoad] and [memStat] go to the one
    slot. *)
Lemma Config_name_as_given cs name :
  name ≠ ""%string →
  let be := run Config Valid cs New in
  memTest be Config name = (false, None) ∧
  memRemove be Config name = (be, Some ErrNoSuchData).
Proof.
  intros Hne be.
  assert (data be !! mkEntry Config name = None) as Hl.
  { destruct (data be !! mkEntry Config name) eqn:Hl; [|done].
    destruct Hne.
    pose proof (run_keys_resolved cs (mkEntry Config name)) as Hk.
    simpl in Hk. rewrite config_name_Config in Hk. apply Hk.
    subst be. eauto. }
  unfold memTest, memRemove. by rewrite Hl.
Qed.

End Properties.

(** ** The concrete store *)

Section Concrete.

Local Open Scope string_scope.

(** The scenario of the data category: two blobs, listed in order, read
    from an offset, one removed. *)
Example scenario_data :
  let be0 := @New Category _ _ in
  let be1 := (Finalize Config (mkTemp b123) be0 Data "a").1 in
  let be2 := (Finalize Config (mkTemp b45) be1 Data "b").1 in
  let be3 := (memRemove be2 Data "a").1 in
  memList_ids be2 Data = ["a"; "b"] ∧
  memGetReader Config be2 Data "a" 1 0 = Ok [x02; x03] ∧
  memList_ids be3 Data = ["b"].
Proof. vm_compute. done. Qed.

(** The scenario of the config category: the second [Finalize] meets the
    slot the first one filled. *)
Example scenario_config :
  let be0 := @New Category _ _ in
  let be1 := (Finalize Config (mkTemp b123) be0 Config "ignored-name-1").1 in
  (Finalize Config (mkTemp b123) be0 Config "ignored-name-1").2 = None ∧
  (Finalize Config (mkTemp b45) be1 Config "ignored-name-2").2
    = Some ErrAlreadyPresent.
Proof. vm_compute. done. Qed.

(** C1.  After [Finalize(Config, "ignored-name-1")] on a new store,
    [memTest] and [memRemove] with the config type and the name
    "ignored-name-2" do not find the blob: they look the name up as it is
    given, while [memGetReader] with the same arguments reads the blob
    from the empty-name slot, where [memTest] finds it too. *)
Theorem Config_rewrite_missing_in_Test_and_Remove :
  let be0 := @New Category _ _ in
  let be1 := (Finalize Config (mkTemp b45) be0 Config "ignored-name-1").1 in
  (Finalize Config (mkTemp b45) be0 Config "ignored-name-1").2 = None ∧
  memTest be1 Config "ignored-name-2" = (false, None) ∧
  (memRemove be1 Config "ignored-name-2").2 = Some ErrNoSuchData ∧
  memGetReader Config be1 Config "ignored-name-2" 0 0 = Ok b45 ∧
  memTest be1 Config "" = (true, None).
Proof. vm_compute. done. Qed.

(** C2.  A buffer that was written [b123] and finalized as
    [(Config, "a")] on a new store: the call succeeds, [memStat] gives 3
    and [memGetReader] with offset 0 and length 0 gives [b123], but
    [memTest(Config, "a")] answers false. *)
Theorem round_trip_Config_Test_false :
  let be0 := @New Category _ _ in
  let e := (Write (mkTemp []) b123).1 in
  let be1 := (Finalize Config e be0 Config "a").1 in
  memCreate be0 = Ok (mkTemp []) ∧
  (Finalize Config e be0 Config "a").2 = None ∧
  memStat Config sample_Valid be1 (mkHandle Config "a") = Ok 3%Z ∧
  memGetReader Config be1 Config "a" 0 0 = Ok b123 ∧
  memTest be1 Config "a" = (false, None).
Proof. vm_compute. done. Qed.

(** C4 as stated fails for [memLoad].  At the offset equal to the length
    of a stored blob, with a destination of one byte, it returns
    [io.ErrUnexpectedEOF].  And for the blob stored under the empty name,
    whose handle fails validation, it returns the validation error both at
    the offset equal to the length, with an empty destination, and beyond
    it. *)
Lemma Load_at_end_counterexample :
  data store3 !! mkEntry Data "b" = Some b123 ∧
  sample_Valid (mkHandle Data "b") = None ∧
  memLoad Config sample_Valid store3 (mkHandle Data "b") [x00] 3
    = LoadReturn [x00] 0 (Some ErrUnexpectedEOF) ∧
  data store_noname !! mkEntry Data "" = Some b45 ∧
  memLoad Config sample_Valid store_noname (mkHandle Data "") [] 2
    = LoadReturn [] 0 (Some (ErrInvalidHandle "invalid Name")) ∧
  memLoad Config sample_Valid store_noname (mkHandle Data "") [x00] 3
    = LoadReturn [x00] 0 (Some (ErrInvalidHandle "invalid Name")) ∧
  ¬ (∀ (be : @MemoryBackend Category _ _) (h : Handle Category) (p buf : list byte),
       sample_Valid h = None →
       data be !! mkEntry (h_Type h) (config_name Config (h_Type h) (h_Name h))
         = Some buf →
       ∃ p' n, memLoad Config sample_Valid be h p (Z.of_nat (List.length buf))
                 = LoadReturn p' n None) ∧
  ¬ (∀ (be : @MemoryBackend Category _ _) (h : Handle Category) (p buf : list byte)
       (off : Z),
       data be !! mkEntry (h_Type h) (config_name Config (h_Type h) (h_Name h))
         = Some buf →
       (Z.of_nat (List.length buf) < off)%Z →
       ∃ p' n, memLoad Config sample_Valid be h p off
                 = LoadReturn p' n (Some ErrOffsetBeyondEnd)).
Proof.
  do 6 (split; [by vm_compute|]). split.
  - intros Hclaim.
    destruct (Hclaim store3 (mkHandle Data "b") [x00] b123) as (p' & n & Hload);
      [by vm_compute | by vm_compute |].
    vm_compute in Hload. discriminate Hload.
  - intros Hclaim.
    destruct (Hclaim store_noname (mkHandle Data "") [x00] b45 3%Z)
      as (p' & n & Hload); [by vm_compute | simpl; lia |].
    vm_compute in Hload. discriminate Hload.
Qed.

(** C6 as stated fails for a handle that fails validation: the blob stored
    under the empty name has two bytes, yet [memLoad] at offset 0 into a
    destination of one byte copies nothing and returns 0 with the
    validation error. *)
Lemma Load_invalid_handle_counterexample :
  data store_noname !! mkEntry Data "" = Some b45 ∧
  memLoad Config sample_Valid store_noname (mkHandle Data "") [x00] 0
    = LoadReturn [x00] 0 (Some (ErrInvalidHandle "invalid Name")) ∧
  ¬ (∀ (be : @MemoryBackend Category _ _) (h : Handle Category) (p buf : list byte)
       (off : Z),
       data be !! mkEntry (h_Type h) (config_name Config (h_Type h) (h_Name h))
         = Some buf →
       (0 ≤ off ≤ Z.of_nat (List.length buf))%Z →
       ∃ p' err,
         memLoad Config sample_Valid be h p off
           = LoadReturn p'
               (Z.of_nat (Nat.min (List.length p)
                                  (List.length (drop (Z.to_nat off) buf))))
               err).
Proof.
  do 2 (split; [by vm_compute|]).
  intros Hclaim.
  destruct (Hclaim store_noname (mkHandle Data "") [x00] b45 0%Z)
    as (p' & err & Hload); [by vm_compute | simpl; lia |].
  vm_compute in Hload. discriminate Hload.
Qed.

(** C10 as stated fails for a handle that fails validation: no blob is
    stored under [(Data, "")] in [store3], yet [memLoad] answers with the
    validation error and not with "no such data". *)
Lemma Load_absent_invalid_counterexample :
  data store3 !! mkEntry Data "" = None ∧
  memLoad Config sample_Valid store3 (mkHandle Data "") [x00] 9
    = LoadReturn [x00] 0 (Some (ErrInvalidHandle "invalid Name")) ∧
  ¬ (∀ (be : @MemoryBackend Category _ _) (h : Handle Category) (p : list byte)
       (off : Z),
       data be !! mkEntry (h_Type h) (config_name Config (h_Type h) (h_Name h))
         = None →
       ∃ p' n, memLoad Config sample_Valid be h p off
                 = LoadReturn p' n (Some ErrNoSuchData)).
Proof.
  do 2 (split; [by vm_compute|]).
  intros Hclaim.
  destruct (Hclaim store3 (mkHandle Data "") [x00] 9%Z) as (p' & n & Hload);
    [by vm_compute|].
  vm_compute in Hload. discriminate Hload.
Qed.

(** *** Instances of the theorems *)

Lemma insert_rejects_present_witness :
  data store3 !! mkEntry Data "a" = Some b45 ∧
  insert store3 Data "a" b123 = (store3, Some ErrAlreadyPresent) ∧
  data (insert store3 Data "a" b123).1 !! mkEntry Data "a" = Some b45.
Proof.
  split; [vm_compute; reflexivity|].
  apply (insert_rejects_present store3 Data "a" b45 b123).
  vm_compute; reflexivity.
Defined.

Lemma read_offset_boundary_witness :
  data store3 !! mkEntry Data "b" = Some b123 ∧
  memGetReader Config store3 Data "b" 3 7 = Ok [] ∧
  memGetReader Config store3 Data "b" 4 7 = Err ErrOffsetBeyondEnd ∧
  memLoad Config sample_Valid store3 (mkHandle Data "b") [x00] 3
    = LoadReturn [x00] 0 (Some ErrUnexpectedEOF) ∧
  memLoad Config sample_Valid store3 (mkHandle Data "b") [x00] 4
    = LoadReturn [x00] 0 (Some ErrOffsetBeyondEnd).
Proof.
  split; [vm_compute; reflexivity|].
  apply (read_offset_boundary Config sample_Valid store3 Data "b" b123
           [x00] 4%N 7%N 4%Z).
  - vm_compute; reflexivity.
  - simpl; lia.
  - simpl; lia.
Defined.

Lemma memGetReader_length_policy_witness :
  data store3 !! mkEntry Data "b" = Some b123 ∧
  memGetReader Config store3 Data "b" 1 5 = Ok [x02; x03].
Proof.
  split; [vm_compute; reflexivity|].
  apply (memGetReader_length_policy Config store3 Data "b" b123 1%N 5%N).
  - vm_compute; reflexivity.
  - simpl; lia.
  - right. simpl; lia.
Defined.

Lemma memLoad_short_read_witness :
  ∃ err,
    memLoad Config sample_Valid store3 (mkHandle Data "b") [x00; x00; x00] 1
      = LoadReturn [x02; x03; x00] 2 err ∧
    (err = Some ErrUnexpectedEOF ↔ (2 < 3)%nat) ∧
    ((2 < 3)%nat → 2%nat = 2%nat) ∧
    ((3 ≤ 2)%nat → err = None ∧ 2%nat = 3%nat ∧ [x02; x03; x00] = [x02; x03]).
Proof.
  apply (memLoad_short_read Config sample_Valid store3 (mkHandle Data "b")
           [x00; x00; x00] 1%Z b123).
  - vm_compute; reflexivity.
  - simpl; lia.
Defined.

Lemma failed_call_keeps_store_witness :
  response_error (exec Config sample_Valid (CallRemove Data "zz") store3).2
    = Some ErrNoSuchData ∧
  (exec Config sample_Valid (CallRemove Data "zz") store3).1 = store3.
Proof.
  split; [vm_compute; reflexivity|].
  apply (failed_call_keeps_store Config sample_Valid (CallRemove Data "zz")
           store3 ErrNoSuchData).
  vm_compute; reflexivity.
Defined.

Lemma absent_key_before_offset_witness :
  data store3 !! mkEntry Data "zz" = None ∧
  memGetReader Config store3 Data "zz" 9 0 = Err ErrNoSuchData ∧
  memLoad Config sample_Valid store3 (mkHandle Data "zz") [x00] 9
    = LoadReturn [x00] 0 (Some ErrNoSuchData) ∧
  (∀ p' n, memLoad Config sample_Valid store3 (mkHandle Data "zz") [x00] 9
             ≠ LoadReturn p' n (Some ErrOffsetBeyondEnd)).
Proof.
  split; [vm_compute; reflexivity|].
  apply (absent_key_before_offset Config sample_Valid store3 Data "zz"
           [x00] 9%N 0%N 9%Z).
  vm_compute; reflexivity.
Defined.

(** A listing of the data category of [store3], during which a blob named
    "0" is stored and "b" is removed: the stream still delivers "a" and
    "b", while a new listing would give "0" and "a". *)
Lemma memList_sorted_snapshot_witness :
  let cs := [CallFinalize (mkTemp b45) Data "0"; CallRemove Data "b"] in
  memList_ids store3 Data = ["a"; "b"] ∧
  memList_ids (run Config sample_Valid cs store3) Data = ["0"; "a"] ∧
  StronglySorted string_lt (memList_ids store3 Data) ∧
  sys_run Config sample_Valid (listing store3 Data) (memList_ids store3 Data)
    (mkSystem (run Config sample_Valid cs store3) false (mkLister [] true)).
Proof.
  intros cs.
  destruct (memList_sorted_snapshot Config sample_Valid store3 Data)
    as (_ & Hsorted & _ & Hlive).
  split; [vm_compute; reflexivity|]. split; [vm_compute; reflexivity|].
  split; [exact Hsorted | exact (Hlive cs)].
Defined.

Lemma DeleteFn_resets_witness :
  ∃ be',
    DeleteFn store3 = (be', None) ∧
    memTest be' Data "a" = (false, None) ∧
    memList be' Data = mkLister [] false.
Proof.
  destruct (DeleteFn_resets Config sample_Valid store3)
    as (be' & Hdel & Htest & Hlist & _).
  exists be'. split; [exact Hdel|]. split; [apply Htest | apply Hlist].
Defined.

End Concrete.

(** * Further properties of the operations *)

Section MoreProperties.

Context {backend_Type : Type} `{Countable backend_Type}.
Variable Config : backend_Type.
Variable Valid : Handle backend_Type → option string.

Local Abbreviation store := (@MemoryBackend backend_Type _ _).
Local Abbreviation key t name := (mkEntry t (config_name Config t name)).

Implicit Types (be : store) (t : backend_Type) (name : string).
Implicit Types (e : tempMemEntry) (h : Handle backend_Type).
Implicit Types (buf p d r : list byte).

(** ** Removal *)

(** X1. [memRemove] of a key that is in the map succeeds; afterwards
    [memTest] of the key answers false, a second [memRemove] fails with
    "no such data", and every other key maps to what it mapped to before. *)
Theorem memRemove_removes be t name d :
  data be !! mkEntry t name = Some d →
  ∃ be',
    memRemove be t name = (be', None) ∧
    memTest be' t name = (false, None) ∧
    memRemove be' t name = (be', Some ErrNoSuchData) ∧
    (∀ k, k ≠ mkEntry t name → data be' !! k = data be !! k).
Proof.
  intros Hl. exists {| data := delete (mkEntry t name) (data be) |}.
  unfold memRemove, memTest. rewrite Hl. simpl. rewrite lookup_delete_eq.
  repeat split. intros k Hk. by rewrite lookup_delete_ne.
Qed.

(** ** Writes leave the other blobs alone *)

(** X2. After a successful [Finalize], every call that resolves to another
    key answers as before: [memGetReader], [memLoad] and [memStat] for a
    name that resolves elsewhere, [memTest] for any other key as given. *)
Theorem Finalize_frame e be t name be' t2 name2 :
  Finalize Config e be t name = (be', None) →
  (key t2 name2 ≠ key t name →
     (∀ offset length,
        memGetReader Config be' t2 name2 offset length
          = memGetReader Config be t2 name2 offset length) ∧
     (∀ p off,
        memLoad Config Valid be' (mkHandle t2 name2) p off
          = memLoad Config Valid be (mkHandle t2 name2) p off) ∧
     memStat Config Valid be' (mkHandle t2 name2)
       = memStat Config Valid be (mkHandle t2 name2)) ∧
  (mkEntry t2 name2 ≠ key t name → memTest be' t2 name2 = memTest be t2 name2).
Proof.
  intros [_ Hd]%(Finalize_ok_inv Config). split.
  - intros Hne.
    assert (data be' !! key t2 name2 = data be !! key t2 name2) as Hl.
    { rewrite Hd. by apply lookup_insert_ne. }
    unfold memGetReader, memLoad, memStat. simpl. by rewrite Hl.
  - intros Hne. unfold memTest. rewrite Hd. by rewrite lookup_insert_ne.
Qed.

(** ** When [memLoad] panics *)

(** X3. [memLoad] panics exactly when the handle passes validation, its key
    is in the map and the offset is negative: the slice expression
    [buf[off:]] is reached with a negative bound.  A handle that fails
    validation or a missing key is answered with an error before that. *)
Theorem memLoad_panics_iff be h p off :
  memLoad Config Valid be h p off = LoadPanic ↔
  Valid h = None ∧ is_Some (data be !! key (h_Type h) (h_Name h)) ∧ (off < 0)%Z.
Proof.
  unfold memLoad. simpl.
  destruct (Valid h) as [msg|]; [by split; [|intros [? _]]|].
  destruct (data be !! key (h_Type h) (h_Name h)) as [buf|];
    [|split; [done | by intros (_ & [? ?] & _)]].
  destruct (Z.ltb_spec (Z.of_nat (List.length buf)) off).
  { split; [done | intros (_ & _ & ?); lia]. }
  destruct (Z.ltb_spec off 0); [by eauto|].
  split; [|intros (_ & _ & ?); lia].
  by destruct (Z.of_nat _ <? Z.of_nat _)%Z.
Qed.

(** ** The write buffer *)

(** X4. Writes accumulate: after any sequence of [Write]s the buffer holds
    what it held before followed by the chunks in order, and [Size] has
    grown by the sum of their lengths; each [Write] reports the length of
    its chunk and no error. *)
Theorem Write_accumulates e (ps : list (list byte)) :
  let e' := foldl (λ e0 p, (Write e0 p).1) e ps in
  tmp_data e' = tmp_data e ++ concat ps ∧
  Size e' = (Size e + N.of_nat (List.length (concat ps)))%N ∧
  (∀ p, (Write e' p).2 = (Z.of_nat (List.length p), None)).
Proof.
  assert (tmp_data (foldl (λ e0 p, (Write e0 p).1) e ps) = tmp_data e ++ concat ps)
    as Hd.
  { revert e. induction ps as [|p ps IH]; intros e.
    - simpl. by rewrite app_nil_r.
    - change (foldl (λ e0 p0, (Write e0 p0).1) e (p :: ps))
        with (foldl (λ e0 p0, (Write e0 p0).1) (Write e p).1 ps).
      rewrite IH. simpl. by rewrite <- app_assoc. }
  intros e'. subst e'. split; [done|]. split; [|done].
  unfold Size. rewrite Hd, length_app. lia.
Qed.

(** ** What the readers hand out *)

(** X5. A reader that [memGetReader] returns holds a contiguous piece of
    the stored blob that starts at the offset, which lies within the blob;
    with length zero it reaches the end, otherwise it is the requested
    length cut down to what is left: never more than was asked for. *)
Theorem memGetReader_Ok_inv be t name offset length r :
  memGetReader Config be t name offset length = Ok r →
  ∃ buf,
    data be !! key t name = Some buf ∧
    (offset ≤ N.of_nat (List.length buf))%N ∧
    (∃ rest, buf = take (N.to_nat offset) buf ++ r ++ rest ∧
             (length = 0%N → rest = [])) ∧
    List.length r =
      (if decide (length = 0%N) then List.length buf - N.to_nat offset
       else Nat.min (N.to_nat length) (List.length buf - N.to_nat offset)).
Proof.
  unfold memGetReader. simpl.
  destruct (data be !! key t name) as [buf|]; [|done].
  destruct (N.ltb_spec (N.of_nat (List.length buf)) offset); [done|].
  intros Hr. exists buf. split; [done|]. split; [done|].
  destruct (N.ltb_spec 0 length) as [Hpos|Hzero].
  - assert (r = take (N.to_nat length) (drop (N.to_nat offset) buf)) as ->.
    { destruct (N.ltb_spec (N.of_nat (List.length (drop (N.to_nat offset) buf)))
                           length) as [Hlt|]; [|congruence].
      injection Hr as <-. rewrite Nat2N.id.
      rewrite !firstn_all2; [done| |done]. rewrite length_drop in Hlt |- *. lia. }
    split.
    + exists (drop (N.to_nat length) (drop (N.to_nat offset) buf)).
      split; [by rewrite !take_drop | lia].
    + rewrite decide_False by lia. by rewrite length_take, length_drop.
  - injection Hr as <-. split.
    + exists []. by rewrite app_nil_r, take_drop.
    + rewrite decide_True by lia. by rewrite length_drop.
Qed.

(** X6. Whatever [memLoad] returns, the destination keeps its length, the
    count lies between 0 and that length, and the bytes past the count are
    untouched; when the error is anything but [io.ErrUnexpectedEOF], the
    destination is untouched altogether and the count is 0. *)
Theorem memLoad_destination be h p off p' n err :
  memLoad Config Valid be h p off = LoadReturn p' n err →
  List.length p' = List.length p ∧
  (0 ≤ n ≤ Z.of_nat (List.length p))%Z ∧
  drop (Z.to_nat n) p' = drop (Z.to_nat n) p ∧
  (∀ x, err = Some x → x ≠ ErrUnexpectedEOF → p' = p ∧ n = 0%Z).
Proof.
  unfold memLoad. simpl.
  assert (List.length p = List.length p ∧
          (0 ≤ 0 ≤ Z.of_nat (List.length p))%Z ∧
          drop (Z.to_nat 0) p = drop (Z.to_nat 0) p) as Hsame
    by (split; [done|split; [lia|done]]).
  destruct (Valid h) as [msg|]; [by intros [= <- <- <-]; destruct Hsame as (? & ? & ?)|].
  destruct (data be !! key (h_Type h) (h_Name h)) as [buf|];
    [|by intros [= <- <- <-]; destruct Hsame as (? & ? & ?)].
  destruct (Z.ltb_spec (Z.of_nat (List.length buf)) off);
    [by intros [= <- <- <-]; destruct Hsame as (? & ? & ?)|].
  destruct (Z.ltb_spec off 0); [done|].
  set (rest := drop (Z.to_nat off) buf).
  set (k := Nat.min (List.length p) (List.length rest)).
  assert (List.length (take k rest ++ drop k p) = List.length p) as Hlen.
  { rewrite length_app, length_take, length_drop. lia. }
  assert (drop k (take k rest ++ drop k p) = drop k p) as Htail.
  { rewrite drop_app_length'; [done|]. rewrite length_take. lia. }
  destruct (Z.of_nat (List.length rest) <? Z.of_nat (List.length p))%Z;
    intros [= <- <- <-]; rewrite Nat2Z.id;
    (split; [done|]); (split; [lia|]); (split; [done|]); by intros x [= <-].
Qed.

(** X7. The two read paths agree.  For a non-empty destination [p], a
    handle that passes validation and an offset that is not negative, if
    [memGetReader] at that offset with length [len(p)] returns the bytes
    [r], then [memLoad] writes exactly [r] at the front of [p], returns
    [len(r)], and signals [io.ErrUnexpectedEOF] exactly when [r] is shorter
    than [p]. *)
Theorem memLoad_agrees_with_memGetReader be t name p off r :
  p ≠ [] → (0 ≤ off)%Z →
  Valid (mkHandle t name) = None →
  memGetReader Config be t name (Z.to_N off) (N.of_nat (List.length p)) = Ok r →
  memLoad Config Valid be (mkHandle t name) p off =
    LoadReturn (r ++ drop (List.length r) p) (Z.of_nat (List.length r))
      (if decide (List.length r < List.length p)
       then Some ErrUnexpectedEOF else None).
Proof.
  intros Hp Hoff Hv. unfold memGetReader. simpl.
  destruct (data be !! key t name) as [buf|] eqn:Hl; [|done].
  destruct (N.ltb_spec (N.of_nat (List.length buf)) (Z.to_N off)); [done|].
  assert (0 < List.length p) as Hpos by (destruct p; [done | simpl; lia]).
  destruct (N.ltb_spec 0 (N.of_nat (List.length p))); [|lia].
  replace (N.to_nat (Z.to_N off)) with (Z.to_nat off) by lia.
  set (rest := drop (Z.to_nat off) buf).
  intros Hr.
  assert (r = take (Nat.min (List.length p) (List.length rest)) rest) as ->.
  { destruct (N.ltb_spec (N.of_nat (List.length rest)) (N.of_nat (List.length p)));
      injection Hr as <-; rewrite Nat2N.id.
    - by rewrite Nat.min_r by lia.
    - by rewrite Nat.min_l by lia. }
  rewrite (memLoad_found Config Valid _ _ _ _ buf) by (done || simpl; lia).
  fold rest. rewrite length_take.
  replace (Nat.min (Nat.min (List.length p) (List.length rest)) (List.length rest))
    with (Nat.min (List.length p) (List.length rest)) by lia.
  f_equal. repeat case_decide; (done || lia).
Qed.

(** X8. For a handle that passes validation, [memStat] answers what
    [memGetReader] with offset 0 and length 0 shows: the number of bytes of
    the reader, or the same error. *)
Theorem memStat_agrees_with_memGetReader be t name :
  Valid (mkHandle t name) = None →
  memStat Config Valid be (mkHandle t name) =
    match memGetReader Config be t name 0 0 with
    | Ok r => Ok (Z.of_nat (List.length r))
    | Err err => Err err
    end.
Proof.
  intros Hv. unfold memStat, memGetReader. rewrite Hv. simpl.
  destruct (data be !! key t name) as [buf|]; [|done].
  by destruct (N.ltb_spec (N.of_nat (List.length buf)) 0); [lia|].
Qed.

(** ** Publishing *)

(** X9. A blob becomes visible by [Finalize] and not before: when
    [Finalize] succeeds, the store it started from had no reader and no
    listed name for the key, and the store it returns lists the name the
    key resolves to and, for a handle that passes validation, reports the
    [Size] of the buffer as the size of the blob. *)
Theorem Finalize_publishes e be t name be' :
  Finalize Config e be t name = (be', None) →
  (∀ offset length,
     memGetReader Config be t name offset length = Err ErrNoSuchData) ∧
  (config_name Config t name ∉ memList_ids be t) ∧
  (config_name Config t name ∈ memList_ids be' t) ∧
  (Valid (mkHandle t name) = None →
   memStat Config Valid be' (mkHandle t name) = Ok (Z.of_N (Size e))).
Proof.
  intros [Hno Hd]%(Finalize_ok_inv Config).
  assert (data be' !! key t name = Some (tmp_data e)) as Hl.
  { rewrite Hd. apply lookup_insert_eq. }
  split; [|split; [|split]].
  - intros offset length. unfold memGetReader. simpl. by rewrite Hno.
  - rewrite memList_ids_elem_of, Hno. by intros [? ?].
  - rewrite memList_ids_elem_of, Hl. eauto.
  - intros Hv. unfold memStat, Size. rewrite Hv. simpl. rewrite Hl.
    f_equal. lia.
Qed.

(** ** The errors of each call *)

(** X10. Which errors a call returns.  [memStat] and [memLoad] return the
    error of [h.Valid()] whenever the handle fails validation, whatever
    the store holds.  Apart from that: [memTest], [memList] and [DeleteFn]
    return no error; [Finalize] only "already present"; [memRemove] only
    "no such data"; [memGetReader] "no such data" or "offset beyond end of
    file"; [memStat] and [memLoad] return the error of [h.Valid()] only
    when the handle fails validation, and for a handle that passes
    [memStat] only "no such data" and [memLoad] only "no such data",
    "offset beyond end of file" or [io.ErrUnexpectedEOF]. *)
Theorem call_errors c be :
  match c with
  | CallStat h | CallLoad h _ _ =>
      ∀ msg, Valid h = Some msg →
             response_error (exec Config Valid c be).2 = Some (ErrInvalidHandle msg)
  | _ => True
  end ∧
  ∀ err,
    response_error (exec Config Valid c be).2 = Some err →
    match c with
    | CallTest _ _ | CallList _ | CallDelete => False
    | CallFinalize _ _ _ => err = ErrAlreadyPresent
    | CallRemove _ _ => err = ErrNoSuchData
    | CallGetReader _ _ _ _ => err = ErrNoSuchData ∨ err = ErrOffsetBeyondEnd
    | CallStat h =>
        match Valid h with
        | Some msg => err = ErrInvalidHandle msg
        | None => err = ErrNoSuchData
        end
    | CallLoad h _ _ =>
        match Valid h with
        | Some msg => err = ErrInvalidHandle msg
        | None => err = ErrNoSuchData ∨ err = ErrOffsetBeyondEnd
                  ∨ err = ErrUnexpectedEOF
        end
    end.
Proof.
  split.
  { destruct c as [| | |h p off|h| | |]; try done; intros msg Hv; simpl.
    - unfold memLoad. by rewrite Hv.
    - unfold memStat. by rewrite Hv. }
  intros err.
  destruct c as [t name|e t name|t name offset length|h p off|h|t name|t|]; simpl.
  - by destruct (memTest be t name) as [b [?|]] eqn:Ht; unfold memTest in Ht;
      destruct (data be !! mkEntry t name).
  - destruct (Finalize Config e be t name) as [be' [err'|]] eqn:Hf; [|done].
    apply insert_err_inv in Hf as (_ & -> & _). by intros [= <-].
  - unfold memGetReader. simpl.
    destruct (data be !! key t name) as [buf|]; [|intros [= <-]; by left].
    destruct (N.of_nat (List.length buf) <? offset)%N; [intros [= <-]; by right|].
    by repeat (destruct (_ <? _)%N).
  - unfold memLoad. simpl.
    destruct (Valid h) as [msg|]; [by intros [= <-]|].
    destruct (data be !! key (h_Type h) (h_Name h)) as [buf|];
      [|intros [= <-]; by left].
    destruct (Z.of_nat (List.length buf) <? off)%Z;
      [intros [= <-]; right; by left|].
    destruct (off <? 0)%Z; [done|].
    destruct (_ <? _)%Z; [|done]. intros [= <-]. right; by right.
  - unfold memStat. simpl.
    destruct (Valid h) as [msg|]; [by intros [= <-]|].
    destruct (data be !! key (h_Type h) (h_Name h)); [done | by intros [= <-]].
  - unfold memRemove.
    destruct (data be !! mkEntry t name); [done | by intros [= <-]].
  - done.
  - done.
Qed.

(** ** Listing and the other operations *)

Lemma sort_Strings_Permutation ids ids' :
  ids ≡ₚ ids' → sort_Strings ids = sort_Strings ids'.
Proof.
  intros Hp. apply sort_Strings_unique.
  - apply Sorted_merge_sort; apply _.
  - by rewrite sort_Strings_perm.
Qed.

(** X11. A listing and [memTest] agree: a name is in the slice that
    [memList] sorts for a type exactly when [memTest] of that type and
    name, taken as it is given, answers true. *)
Theorem memList_agrees_with_memTest be t name :
  name ∈ memList_ids be t ↔ memTest be t name = (true, None).
Proof.
  rewrite memList_ids_elem_of. unfold memTest.
  destruct (data be !! mkEntry t name).
  - split; eauto.
  - split; [by intros [? ?] | done].
Qed.

(** X12. In a store built by calls from [New], a listing of the config
    type is empty or holds the empty name alone. *)
Theorem memList_Config cs :
  let be := run Config Valid cs New in
  memList_ids be Config = [] ∨ memList_ids be Config = [""%string].
Proof.
  intros be.
  assert (∀ name, name ∈ memList_ids be Config → name = ""%string) as Hall.
  { intros name Hin%memList_ids_elem_of.
    pose proof (run_keys_resolved Config Valid cs (mkEntry Config name) Hin) as Hk.
    simpl in Hk. by rewrite config_name_Config in Hk. }
  pose proof (memList_ids_strict be Config) as Hs.
  destruct (memList_ids be Config) as [|x [|y l]]; [by left | |].
  - right. f_equal. apply Hall. by left.
  - apply StronglySorted_inv in Hs as [_ Hxy].
    apply Forall_cons in Hxy as [Hxy _].
    rewrite (Hall x), (Hall y) in Hxy by (rewrite !elem_of_cons; auto).
    by apply string_lt_irrefl in Hxy.
Qed.

(** X13. After a successful [Finalize], the listing of the type is the
    former listing with the name the key resolves to sorted in, and the
    listings of the other types are as before. *)
Theorem memList_after_Finalize e be t name be' :
  Finalize Config e be t name = (be', None) →
  memList_ids be' t = sort_Strings (config_name Config t name :: memList_ids be t) ∧
  (∀ t', t' ≠ t → memList_ids be' t' = memList_ids be t').
Proof.
  intros [Hno Hd]%(Finalize_ok_inv Config).
  pose proof (map_to_list_insert (data be) (key t name) (tmp_data e) Hno) as Hp.
  rewrite <- Hd in Hp. split.
  - unfold memList_ids at 1.
    rewrite (sort_Strings_Permutation _ _ (collect_Permutation t _ _ Hp)).
    simpl. rewrite decide_True by done.
    apply sort_Strings_Permutation. constructor.
    symmetry. apply sort_Strings_perm.
  - intros t' Hne. unfold memList_ids.
    rewrite (sort_Strings_Permutation _ _ (collect_Permutation t' _ _ Hp)).
    simpl. by rewrite decide_False by done.
Qed.

(** X14. After a successful [memRemove], the name is gone from the listing
    of its type, the former listing is the new one with the name sorted
    in, and the listings of the other types are as before. *)
Theorem memList_after_memRemove be t name be' :
  memRemove be t name = (be', None) →
  (name ∉ memList_ids be' t) ∧
  memList_ids be t = sort_Strings (name :: memList_ids be' t) ∧
  (∀ t', t' ≠ t → memList_ids be' t' = memList_ids be t').
Proof.
  unfold memRemove. destruct (data be !! mkEntry t name) as [d|] eqn:Hl; [|done].
  intros [= <-].
  pose proof (map_to_list_delete (data be) (mkEntry t name) d Hl) as Hp.
  split; [|split].
  - rewrite memList_ids_elem_of. simpl. rewrite lookup_delete_eq. by intros [? ?].
  - unfold memList_ids at 1.
    rewrite <- (sort_Strings_Permutation _ _ (collect_Permutation t _ _ Hp)).
    simpl. rewrite decide_True by done.
    apply sort_Strings_Permutation. constructor.
    symmetry. apply sort_Strings_perm.
  - intros t' Hne. unfold memList_ids.
    rewrite <- (sort_Strings_Permutation _ _ (collect_Permutation t' _ _ Hp)).
    simpl. by rewrite decide_False by done.
Qed.

(** X15. Go visits the entries of a map in no fixed order.  Whatever order
    the loop of [memList] meets them in, sorting gives the same slice, and
    it is strictly increasing. *)
Theorem memList_order_independent be t
    (it : list (entry backend_Type * list byte)) :
  it ≡ₚ map_to_list (data be) →
  sort_Strings (collect t it) = memList_ids be t ∧
  StronglySorted string_lt (sort_Strings (collect t it)).
Proof.
  intros Hp.
  assert (sort_Strings (collect t it) = memList_ids be t) as ->.
  { by apply sort_Strings_Permutation, collect_Permutation. }
  split; [done | apply memList_ids_strict].
Qed.

(** ** Operations one after another *)

(** X16. A key that has been removed can be written again: after a
    successful [memRemove] of a key that [Finalize] does not rewrite, a
    [Finalize] under that key succeeds and the reader gives the new
    bytes. *)
Theorem memRemove_then_Finalize e be t name be1 :
  memRemove be t name = (be1, None) →
  config_name Config t name = name →
  ∃ be2,
    Finalize Config e be1 t name = (be2, None) ∧
    memGetReader Config be2 t name 0 0 = Ok (tmp_data e).
Proof.
  unfold memRemove. destruct (data be !! mkEntry t name) as [d|]; [|done].
  intros [= <-] Hn.
  destruct (Finalize Config e {| data := delete (mkEntry t name) (data be) |} t name)
    as [be2 err] eqn:Hf.
  assert (err = None) as ->.
  { unfold Finalize, insert in Hf. rewrite Hn in Hf. simpl in Hf.
    rewrite lookup_delete_eq in Hf. by injection Hf as _ <-. }
  exists be2. split; [done|].
  by apply (Finalize_then_read Config Valid) in Hf as [Hr _].
Qed.

(** X17. After [DeleteFn] every key is free: a [Finalize] on the store it
    leaves succeeds whatever the type and the name, and afterwards the
    listing of that type is the one name the key resolves to and the
    listings of the other types are empty. *)
Theorem Finalize_after_DeleteFn e be t name :
  ∃ be2,
    Finalize Config e (DeleteFn be).1 t name = (be2, None) ∧
    memList_ids be2 t = [config_name Config t name] ∧
    (∀ t', t' ≠ t → memList_ids be2 t' = []).
Proof.
  exists {| data := {[ key t name := tmp_data e ]} |}.
  split; [|split].
  - unfold Finalize, insert. simpl. rewrite lookup_empty.
    by rewrite insert_empty.
  - unfold memList_ids. simpl. rewrite map_to_list_singleton. simpl.
    by rewrite decide_True.
  - intros t' Hne. unfold memList_ids. simpl. rewrite map_to_list_singleton.
    simpl. by rewrite decide_False.
Qed.

(** X18. [Finalize] does not use up the buffer: after it has succeeded
    under one key, the same buffer can be finalized under a key that is
    free, and both keys then read back the bytes of the buffer. *)
Theorem Finalize_buffer_again e be t1 name1 t2 name2 be1 :
  Finalize Config e be t1 name1 = (be1, None) →
  key t2 name2 ≠ key t1 name1 →
  data be !! key t2 name2 = None →
  ∃ be2,
    Finalize Config e be1 t2 name2 = (be2, None) ∧
    memGetReader Config be2 t1 name1 0 0 = Ok (tmp_data e) ∧
    memGetReader Config be2 t2 name2 0 0 = Ok (tmp_data e).
Proof.
  intros Hf1 Hne Hno.
  pose proof (Finalize_then_read Config Valid _ _ _ _ _ Hf1) as [Hr1 _].
  apply (Finalize_ok_inv Config) in Hf1 as [_ Hd1].
  destruct (Finalize Config e be1 t2 name2) as [be2 err] eqn:Hf2.
  assert (err = None) as ->.
  { unfold Finalize, insert in Hf2. simpl in Hf2.
    rewrite Hd1, lookup_insert_ne, Hno in Hf2 by done. by injection Hf2 as _ <-. }
  exists be2. split; [done|].
  pose proof (Finalize_then_read Config Valid _ _ _ _ _ Hf2) as [Hr2 _].
  split; [|done].
  apply (Finalize_ok_inv Config) in Hf2 as [_ Hd2].
  unfold memGetReader in Hr1 |- *. simpl in Hr1 |- *.
  rewrite Hd2, lookup_insert_ne by done. exact Hr1.
Qed.

(** X19. The config type has one slot for the calls that rewrite the name:
    once a [Finalize] with the config type has succeeded, another one
    fails with "already present" and leaves the store, whatever names are
    given, and [memGetReader] and, for a handle that passes validation,
    [memStat] find the first blob under every name. *)
Theorem Config_single_slot e1 e2 be name1 name2 name3 be1 :
  Finalize Config e1 be Config name1 = (be1, None) →
  Finalize Config e2 be1 Config name2 = (be1, Some ErrAlreadyPresent) ∧
  memGetReader Config be1 Config name3 0 0 = Ok (tmp_data e1) ∧
  (Valid (mkHandle Config name3) = None →
   memStat Config Valid be1 (mkHandle Config name3)
     = Ok (Z.of_nat (List.length (tmp_data e1)))).
Proof.
  intros Hf.
  pose proof (Finalize_twice Config e1 e2 be Config name1 name2 be1) as Htw.
  rewrite !config_name_Config in Htw. destruct (Htw eq_refl Hf) as [Hf2 Hl].
  split; [done|].
  unfold memGetReader, memStat. simpl. rewrite !config_name_Config, Hl.
  split.
  - by destruct (N.ltb_spec (N.of_nat (List.length (tmp_data e1))) 0); [lia|].
  - by intros ->.
Qed.

(** ** The goroutine of a listing *)

Lemma lister_step_open done (l l' : lister) ev :
  lister_step done l ev l' → closed l = false.
Proof. by destruct 1. Qed.

(** X20. The goroutine of a listing cannot run forever.  In every sequence
    of turns, the number of turns taken, plus the names still to send,
    plus one while the channel is open, is at most what the last two were
    at the start: from an open channel with [n] names to send there are at
    most [n + 1] turns.  The run that sends every name and then closes the
    channel takes exactly [n + 1]; a closed channel takes no turn.  (A turn
    needs a receiver or the done signal: the goroutine may wait, as the
    step relation leaves open.) *)
Theorem lister_run_bounded done (l : lister) :
  (∀ evs l',
     lister_run done l evs l' →
     List.length evs + List.length (pending l') + (if closed l' then 0 else 1)
       ≤ List.length (pending l) + (if closed l then 0 else 1)) ∧
  (closed l = false →
   lister_run done l ((Send <$> pending l) ++ [Close]) (mkLister [] true) ∧
   List.length ((Send <$> pending l) ++ [Close]) = List.length (pending l) + 1) ∧
  (closed l = true → ∀ evs l', lister_run done l evs l' → evs = [] ∧ l' = l).
Proof.
  split; [|split].
  - intros evs l' Hrun.
    induction Hrun as [|l1 ev l2 evs l3 Hstep _ IH]; [simpl; lia|].
    destruct Hstep; simpl in *; lia.
  - destruct l as [ids c]. simpl. intros ->. split.
    + induction ids as [|id ids IH]; simpl.
      * eapply lister_run_cons; constructor.
      * eapply lister_run_cons; [constructor | exact IH].
    + rewrite length_app, length_fmap. simpl. lia.
  - intros Hc evs l' Hrun. destruct Hrun as [|l1 ev l2 evs l3 Hstep _]; [done|].
    apply lister_step_open in Hstep. congruence.
Qed.

(** X21. Cancelling ends a listing.  Once done is signalled and the
    channel is still open, the goroutine can close it in its next turn
    whatever is left to send; and from a closed channel no name is
    received any more, whatever happens to the store. *)
Theorem cancel_ends_listing (s : @system backend_Type _ _) :
  (closed (sys_ch s) = false → sys_done s = true →
   ∃ l', sys_step Config Valid s None (mkSystem (sys_store s) true l') ∧
         closed l' = true ∧ pending l' = pending (sys_ch s)) ∧
  (closed (sys_ch s) = true →
   ∀ out s', sys_run Config Valid s out s' → out = [] ∧ sys_ch s' = sys_ch s).
Proof.
  split.
  - destruct s as [be done [ids c]]. simpl. intros -> ->.
    exists (mkLister ids true). split; [|done].
    apply (sys_close _ _ (mkSystem be true (mkLister ids false))).
    destruct ids; by constructor.
  - intros Hc out s' Hrun.
    induction Hrun as [|s1 o s2 out s3 Hstep _ IH]; [done|].
    assert (o = None ∧ sys_ch s2 = sys_ch s1) as [-> Hch].
    { destruct Hstep as [| |? ? ? Hs|? ? Hs]; try done;
        apply lister_step_open in Hs; congruence. }
    rewrite Hch in IH. by destruct (IH Hc) as [-> ->].
Qed.

End MoreProperties.

(** ** Instances on the concrete store *)

Section MoreConcrete.

Local Open Scope string_scope.

Local Abbreviation store4 :=
  (Finalize Config (mkTemp b45) store3 Data "c").1.

Lemma memRemove_removes_witness :
  data store3 !! mkEntry Data "a" = Some b45 ∧
  ∃ be',
    memRemove store3 Data "a" = (be', None) ∧
    memTest be' Data "a" = (false, None) ∧
    memRemove be' Data "a" = (be', Some ErrNoSuchData) ∧
    (∀ k, k ≠ mkEntry Data "a" → data be' !! k = data store3 !! k).
Proof.
  split; [vm_compute; reflexivity|].
  apply (memRemove_removes store3 Data "a" b45). vm_compute; reflexivity.
Defined.

Lemma Finalize_frame_witness :
  Finalize Config (mkTemp b45) store3 Data "c" = (store4, None) ∧
  memGetReader Config store4 Data "a" 0 0 = memGetReader Config store3 Data "a" 0 0 ∧
  memTest store4 Data "a" = memTest store3 Data "a".
Proof.
  split; [vm_compute; reflexivity|].
  destruct (Finalize_frame Config sample_Valid (mkTemp b45) store3 Data "c"
              store4 Data "a") as [Hread Htest].
  - vm_compute; reflexivity.
  - split.
    + apply Hread. vm_compute. discriminate.
    + apply Htest. vm_compute. discriminate.
Defined.

Lemma memLoad_panics_iff_witness :
  memLoad Config sample_Valid store3 (mkHandle Data "a") [x00] (-1) = LoadPanic.
Proof.
  apply (memLoad_panics_iff Config sample_Valid store3 (mkHandle Data "a") [x00] (-1)%Z).
  split; [vm_compute; reflexivity|]. split; [|lia].
  exists b45. vm_compute; reflexivity.
Defined.

Lemma memGetReader_Ok_inv_witness :
  memGetReader Config store3 Data "b" 1 1 = Ok [x02] ∧
  ∃ buf,
    data store3 !! mkEntry Data (config_name Config Data "b") = Some buf ∧
    (1 ≤ N.of_nat (List.length buf))%N ∧
    (∃ rest, buf = (take (N.to_nat 1) buf ++ [x02] ++ rest)%list ∧
             (1%N = 0%N → rest = [])) ∧
    List.length [x02] =
      (if decide (1%N = 0%N) then (List.length buf - N.to_nat 1)%nat
       else Nat.min (N.to_nat 1) (List.length buf - N.to_nat 1)).
Proof.
  split; [vm_compute; reflexivity|].
  apply (memGetReader_Ok_inv Config store3 Data "b" 1%N 1%N [x02]).
  vm_compute; reflexivity.
Defined.

Lemma memLoad_destination_witness :
  memLoad Config sample_Valid store3 (mkHandle Data "b") [x00; x00] 2
    = LoadReturn [x03; x00] 1 (Some ErrUnexpectedEOF) ∧
  List.length [x03; x00] = List.length [x00; x00] ∧
  (0 ≤ 1 ≤ Z.of_nat (List.length [x00; x00]))%Z ∧
  drop (Z.to_nat 1) [x03; x00] = drop (Z.to_nat 1) [x00; x00] ∧
  (∀ x, Some ErrUnexpectedEOF = Some x → x ≠ ErrUnexpectedEOF →
        [x03; x00] = [x00; x00] ∧ 1%Z = 0%Z).
Proof.
  split; [vm_compute; reflexivity|].
  apply (memLoad_destination Config sample_Valid store3 (mkHandle Data "b")
           [x00; x00] 2%Z [x03; x00] 1%Z (Some ErrUnexpectedEOF)).
  vm_compute; reflexivity.
Defined.

Lemma memLoad_agrees_with_memGetReader_witness :
  memGetReader Config store3 Data "b" 1 2 = Ok [x02; x03] ∧
  memLoad Config sample_Valid store3 (mkHandle Data "b") [x00; x00] 1
    = LoadReturn [x02; x03] 2 None.
Proof.
  split; [vm_compute; reflexivity|].
  apply (memLoad_agrees_with_memGetReader Config sample_Valid store3 Data "b"
           [x00; x00] 1%Z [x02; x03]).
  - discriminate.
  - lia.
  - vm_compute; reflexivity.
  - vm_compute; reflexivity.
Defined.

Lemma memStat_agrees_with_memGetReader_witness :
  sample_Valid (mkHandle Data "b") = None ∧
  memStat Config sample_Valid store3 (mkHandle Data "b") = Ok 3%Z.
Proof.
  split; [vm_compute; reflexivity|].
  apply (memStat_agrees_with_memGetReader Config sample_Valid store3 Data "b").
  vm_compute; reflexivity.
Defined.

Lemma Finalize_publishes_witness :
  Finalize Config (mkTemp b45) store3 Data "c" = (store4, None) ∧
  memGetReader Config store3 Data "c" 0 0 = Err ErrNoSuchData ∧
  ("c" ∉ memList_ids store3 Data) ∧
  ("c" ∈ memList_ids store4 Data) ∧
  memStat Config sample_Valid store4 (mkHandle Data "c") = Ok 2%Z.
Proof.
  split; [vm_compute; reflexivity|].
  destruct (Finalize_publishes Config sample_Valid (mkTemp b45) store3 Data "c"
              store4) as (Hbefore & Hnot & Hin & Hstat).
  - vm_compute; reflexivity.
  - split; [apply Hbefore|]. split; [exact Hnot|]. split; [exact Hin|].
    apply Hstat. vm_compute; reflexivity.
Defined.

Lemma call_errors_witness :
  sample_Valid (mkHandle Data "") = Some "invalid Name" ∧
  response_error
    (exec Config sample_Valid (CallStat (mkHandle Data "")) store_noname).2
    = Some (ErrInvalidHandle "invalid Name") ∧
  response_error
    (exec Config sample_Valid (CallLoad (mkHandle Data "b") [x00] 4) store3).2
    = Some ErrOffsetBeyondEnd ∧
  (ErrOffsetBeyondEnd = ErrNoSuchData ∨ ErrOffsetBeyondEnd = ErrOffsetBeyondEnd
   ∨ ErrOffsetBeyondEnd = ErrUnexpectedEOF).
Proof.
  split; [vm_compute; reflexivity|].
  split.
  - destruct (call_errors Config sample_Valid (CallStat (mkHandle Data ""))
                store_noname) as [Hinvalid _].
    apply Hinvalid. vm_compute; reflexivity.
  - split; [vm_compute; reflexivity|].
    destruct (call_errors Config sample_Valid
                (CallLoad (mkHandle Data "b") [x00] 4%Z) store3) as [_ Honly].
    apply (Honly ErrOffsetBeyondEnd). vm_compute; reflexivity.
Defined.

Lemma memList_after_Finalize_witness :
  Finalize Config (mkTemp b45) store3 Data "c" = (store4, None) ∧
  memList_ids store4 Data = sort_Strings ("c" :: memList_ids store3 Data) ∧
  memList_ids store4 Config = memList_ids store3 Config.
Proof.
  split; [vm_compute; reflexivity|].
  destruct (memList_after_Finalize Config (mkTemp b45) store3 Data "c" store4)
    as [Hsame Hother].
  - vm_compute; reflexivity.
  - split; [exact Hsame | by apply Hother].
Defined.

Lemma memList_after_memRemove_witness :
  memRemove store3 Data "a" = ((memRemove store3 Data "a").1, None) ∧
  ("a" ∉ memList_ids (memRemove store3 Data "a").1 Data) ∧
  memList_ids store3 Data
    = sort_Strings ("a" :: memList_ids (memRemove store3 Data "a").1 Data).
Proof.
  split; [vm_compute; reflexivity|].
  destruct (memList_after_memRemove store3 Data "a" (memRemove store3 Data "a").1)
    as (Hgone & Hwas & _).
  - vm_compute; reflexivity.
  - split; [exact Hgone | exact Hwas].
Defined.

Lemma memList_order_independent_witness :
  sort_Strings (collect Data (reverse (map_to_list (data store3))))
    = memList_ids store3 Data ∧
  StronglySorted string_lt
    (sort_Strings (collect Data (reverse (map_to_list (data store3))))).
Proof.
  apply (memList_order_independent store3 Data (reverse (map_to_list (data store3)))).
  apply reverse_Permutation.
Defined.

Lemma memRemove_then_Finalize_witness :
  memRemove store3 Data "a" = ((memRemove store3 Data "a").1, None) ∧
  ∃ be2,
    Finalize Config (mkTemp b123) (memRemove store3 Data "a").1 Data "a" = (be2, None) ∧
    memGetReader Config be2 Data "a" 0 0 = Ok b123.
Proof.
  split; [vm_compute; reflexivity|].
  apply (memRemove_then_Finalize Config sample_Valid (mkTemp b123) store3 Data "a"
           (memRemove store3 Data "a").1).
  - vm_compute; reflexivity.
  - vm_compute; reflexivity.
Defined.

Lemma Finalize_buffer_again_witness :
  Finalize Config (mkTemp b45) store3 Data "c" = (store4, None) ∧
  ∃ be2,
    Finalize Config (mkTemp b45) store4 Data "d" = (be2, None) ∧
    memGetReader Config be2 Data "c" 0 0 = Ok b45 ∧
    memGetReader Config be2 Data "d" 0 0 = Ok b45.
Proof.
  split; [vm_compute; reflexivity|].
  apply (Finalize_buffer_again Config sample_Valid (mkTemp b45) store3
           Data "c" Data "d" store4).
  - vm_compute; reflexivity.
  - vm_compute. discriminate.
  - vm_compute; reflexivity.
Defined.

Lemma Config_single_slot_witness :
  Finalize Config (mkTemp b123) New Config "first"
    = ((Finalize Config (mkTemp b123) New Config "first").1, None) ∧
  Finalize Config (mkTemp b45) (Finalize Config (mkTemp b123) New Config "first").1
      Config "second"
    = ((Finalize Config (mkTemp b123) New Config "first").1, Some ErrAlreadyPresent) ∧
  memGetReader Config (Finalize Config (mkTemp b123) New Config "first").1
      Config "third" 0 0 = Ok b123.
Proof.
  split; [vm_compute; reflexivity|].
  destruct (Config_single_slot Config sample_Valid (mkTemp b123) (mkTemp b45) New
              "first" "second" "third"
              (Finalize Config (mkTemp b123) New Config "first").1)
    as (Hsecond & Hread & _).
  - vm_compute; reflexivity.
  - split; [exact Hsecond | exact Hread].
Defined.

Lemma lister_run_bounded_witness :
  lister_run false (mkLister ["a"; "b"] false) [Send "a"; Send "b"; Close]
    (mkLister [] true) ∧
  (3 + 0 + 0 ≤ 2 + 1)%nat.
Proof.
  destruct (lister_run_bounded false (mkLister ["a"; "b"] false))
    as (Hbound & Hfull & _).
  destruct (Hfull eq_refl) as [Hrun _].
  split; [exact Hrun | exact (Hbound _ _ Hrun)].
Defined.

Lemma cancel_ends_listing_witness :
  ∃ l', sys_step Config sample_Valid
          (mkSystem store3 true (mkLister ["a"; "b"] false)) None
          (mkSystem store3 true l') ∧
        closed l' = true ∧ pending l' = ["a"; "b"].
Proof.
  destruct (cancel_ends_listing Config sample_Valid
              (mkSystem store3 true (mkLister ["a"; "b"] false))) as [Hcancel _].
  apply Hcancel; reflexivity.
Defined.

End MoreConcrete.

End mem.
